(** * picosnitch: connection attribution and reconciliation

    A shallow embedding of [picosnitch.py] and the properties of its
    attribution engine ([new_entry], [update_entry]), its poller ([poll]),
    its run loop ([loop]) and its state store ([read], [write]).

    Conventions of the embedding.
    - A Python [str] is a [string], a sequence of one-byte characters
      (text beyond ASCII is its UTF-8 bytes); [+:+] is concatenation.
      [in] on two strings is read the same on bytes and on characters;
      [split] knows the ASCII white space only.
    - The snitch dictionary has a fixed schema and becomes a record; the
      [Processes] dictionary, keyed by executable path, is a [gmap].
    - [pcap_dict] is a Python dict whose iteration order (insertion order)
      is observable in [poll]; it is an association list with the
      dictionary operations written out.
    - Statements that may raise live in a state-and-exception monad whose
      state survives a raise, as the mutations of a Python [try] block do.
      The state is the heap of the objects the functions share; [entry]
      in [update_entry] is the object stored in [Processes], so its
      mutations are mutations of the dictionary.
    - What the program gets from outside is a parameter: the clock, the
      connection table and the process lookup of psutil (one answer for
      each tick), what the file system answers to a write, [ipaddress],
      [json], [str] of a connection and of a list, arithmetic on the
      numbers of the configuration, whether scapy is installed and the
      module is run as a script, and the order in which a [for] loop goes
      through a set.
    - Left out: how long [time.sleep] sleeps, the signals (their handler
      is [terminate]), the daemon of [main], and the capture process, of
      which only the callbacks [parse_packet] and [filter_packet] are
      modelled; the main process sees the capture queue only through what
      it hands out. *)

From Stdlib Require Import ZArith PrimFloat FloatOps SpecFloat.
From Stdlib Require Ascii.
From stdpp Require Import gmap strings list pretty.

Local Open Scope Z_scope.
Local Open Scope string_scope.
Local Open Scope list_scope.

(** ** Python strings and lists *)

Module Py.

(** [needle in hay] on two strings: substring test. *)
Fixpoint str_contains (hay needle : string) : bool :=
  String.prefix needle hay ||
  match hay with
  | EmptyString => false
  | String _ hay' => str_contains hay' needle
  end.

(** [str.isspace] on the ASCII range: tab to carriage return, the four
    separators 0x1c-0x1f and the blank. *)
Definition is_space (a : Ascii.ascii) : bool :=
  let n := Ascii.N_of_ascii a in
  ((9 <=? n) && (n <=? 13) || (28 <=? n) && (n <=? 32))%N.

(** [s.split()]: the maximal runs of characters that are not white space.
    [cur] is the run being read. *)
Fixpoint split_from (cur s : string) : list string :=
  match s with
  | EmptyString => if decide (cur = "") then [] else [cur]
  | String a s' =>
      if is_space a
      then (if decide (cur = "") then split_from "" s'
            else cur :: split_from "" s')
      else split_from (cur +:+ String a "") s'
  end.

Definition split (s : string) : list string := split_from "" s.

(** [l.count(x)]. *)
Definition count (x : string) (l : list string) : nat :=
  length (filter (λ y, y = x) l).

(** [l[-1] = f(l[-1])] on a list; [IndexError] on the empty list is the
    caller's to exclude ([None]). *)
Definition update_last (f : string → string) (l : list string)
  : option (list string) :=
  match reverse l with
  | [] => None
  | x :: r => Some (reverse r ++ [f x])
  end.

(** [x in l] on a list of strings. *)
Definition list_contains (l : list string) (x : string) : bool :=
  bool_decide (x ∈ l).

End Py.

(** ** Data model *)

(** A JSON number of the configuration: Python [int] or [float]. *)
Inductive number :=
  | NInt (z : Z)
  | NFloat (f : float).

Record config := Config {
  polling_interval : number;     (* "Polling interval" *)
  write_interval : number;       (* "Write interval" *)
  use_pcap : bool                (* "Use pcap" *)
}.

(** One value of [snitch["Processes"]]. *)
Record proc_entry := Entry {
  e_name : string;                    (* "name" *)
  e_cmdlines : list string;           (* "cmdlines" *)
  e_first_seen : string;              (* "first seen" *)
  e_last_seen : string;               (* "last seen" *)
  e_days_seen : Z;                    (* "days seen" *)
  e_remote_addresses : list string    (* "remote addresses" *)
}.

Record snitch := Snitch {
  s_config : config;                  (* "Config" *)
  s_errors : list string;             (* "Errors" *)
  s_executables : list string;        (* "Executables" *)
  s_names : list string;              (* "Names" *)
  s_processes : gmap string proc_entry     (* "Processes" *)
}.

(** [proc["cmdline"]]: a list of arguments, or the string psutil puts in
    its place ([ad_value=""], and the initial [proc] of [poll]). *)
Inductive cmdline :=
  | CmdList (args : list string)
  | CmdStr (s : string).

(** The dictionary [proc]; [p_pid] is [None] for the placeholder [""]. *)
Record procinfo := Proc {
  p_name : string;
  p_exe : string;
  p_cmdline : cmdline;
  p_pid : option Z
}.

(** psutil's [addr(ip, port)] and [sconn]; an unconnected socket has the
    empty tuple for [raddr] ([None]), a connection whose owner is not
    known has [pid=None]. *)
Record addr := Addr { a_ip : string; a_port : Z }.

Record sconn := SConn {
  c_fd : Z;
  c_family : Z;
  c_type : Z;
  c_laddr : addr;
  c_raddr : option addr;
  c_status : string;
  c_pid : option Z
}.

Global Instance addr_eq_dec : EqDecision addr.
Proof. solve_decision. Defined.
Global Instance addr_countable : Countable addr.
Proof.
  apply (inj_countable' (λ a, (a_ip a, a_port a)) (λ p, Addr p.1 p.2)).
  by intros [].
Defined.
Global Instance sconn_eq_dec : EqDecision sconn.
Proof. solve_decision. Defined.
Global Instance sconn_countable : Countable sconn.
Proof.
  apply (inj_countable'
    (λ c, (c_fd c, c_family c, c_type c, c_laddr c, c_raddr c, c_status c, c_pid c))
    (λ t, match t with (a, b, c, d, e, f, g) => SConn a b c d e f g end)).
  by intros [].
Defined.

(** A record put on the capture queue by [parse_packet]. *)
Record packet := Packet {
  k_direction : string;
  k_laddr_ip : string;
  k_laddr_port : Z;
  k_raddr_ip : string
}.

(** ** [pcap_dict]: an insertion-ordered dictionary keyed by local port *)

Module Dict.

Definition t := list (Z * packet).

(** [d[k] = v]: a present key keeps its place, a new key goes last. *)
Fixpoint set (k : Z) (v : packet) (d : t) : t :=
  match d with
  | [] => [(k, v)]
  | (k', v') :: d' => if decide (k' = k) then (k, v) :: d' else (k', v') :: set k v d'
  end.

(** [d.pop(k, None)], the popped value dropped. *)
Definition pop (k : Z) (d : t) : t := filter (λ kv, kv.1 ≠ k) d.

(** [for k in d]. *)
Definition keys (d : t) : list Z := d.*1.

End Dict.

(** ** Exceptions and the state-and-exception monad *)

Inductive exn :=
  | KeyError            (* a missing dictionary key *)
  | IndexError          (* an index outside a list *)
  | ValueError          (* ipaddress.ip_address on a malformed address, time.sleep on a negative length *)
  | PsutilError         (* psutil.NoSuchProcess and its siblings *)
  | NameError           (* a name that is bound nowhere *)
  | OSError             (* a directory that cannot be made, a file that cannot be
                           opened or written *)
  | ImportError         (* a module that is not installed *)
  | JSONDecodeError
  | AssertionError
  | ZeroDivisionError
  | OverflowError
  | SystemExit.         (* sys.exit *)

(** A statement run from state [St]: the state it leaves, and either the
    value it returns or the exception it raises. *)
Definition M (St A : Type) : Type := St → (exn + A) * St.

Global Instance M_ret {St} : MRet (M St) := λ A a s, (inr a, s).
Global Instance M_bind {St} : MBind (M St) := λ A B k m s,
  match m s with
  | (inr a, s') => k a s'
  | (inl e, s') => (inl e, s')
  end.

Definition raise {St A} (e : exn) : M St A := λ s, (inl e, s).
Definition gets {St A} (f : St → A) : M St A := λ s, (inr (f s), s).
Definition modify {St} (f : St → St) : M St unit := λ s, (inr tt, f s).

(** [o] when it is there, else [raise e]. *)
Definition or_raise {St A} (e : exn) (o : option A) : M St A :=
  match o with
  | Some a => mret a
  | None => raise e
  end.

(** [try: body  except Exception: handler]. *)
Definition try_except {St A} (body handler : M St A) : M St A := λ s,
  match body s with
  | (inl _, s') => handler s'
  | r => r
  end.

(** A statement on a part [S] of the state [T]. *)
Definition zoom {S T A} (get : T → S) (put : S → T → T) (m : M S A) : M T A := λ t,
  let '(r, s) := m (get t) in (r, put s t).

(** [for x in l: body(x)]. *)
Fixpoint for_each {St A} (l : list A) (body : A → M St unit) : M St unit :=
  match l with
  | [] => mret tt
  | x :: l' => body x;; for_each l' body
  end.

(** ** The state of the main process *)

Inductive stream := Stdout | Stderr.

(** The durable state file and its directory:
    [~/.config/picosnitch/snitch.json]. *)
Record fs := Fs {
  fs_dir : bool;                  (* os.path.isdir(dirname(file_path)) *)
  fs_file : option string         (* the file's text when it exists *)
}.

(** The objects the functions share: the snitch dictionary, the candidate
    map, what [toast] has shown (with the stream it falls back on) and the
    state file. *)
Record heap := Heap {
  h_snitch : snitch;
  h_pcap : Dict.t;
  h_out : list (stream * string);
  h_fs : fs
}.

Definition set_snitch (f : snitch → snitch) (h : heap) : heap :=
  Heap (f (h_snitch h)) (h_pcap h) (h_out h) (h_fs h).
Definition set_pcap (f : Dict.t → Dict.t) (h : heap) : heap :=
  Heap (h_snitch h) (f (h_pcap h)) (h_out h) (h_fs h).
Definition set_out (f : list (stream * string) → list (stream * string)) (h : heap) : heap :=
  Heap (h_snitch h) (h_pcap h) (f (h_out h)) (h_fs h).
Definition set_fs (f : fs → fs) (h : heap) : heap :=
  Heap (h_snitch h) (h_pcap h) (h_out h) (f (h_fs h)).

Definition set_errors (f : list string → list string) (s : snitch) : snitch :=
  Snitch (s_config s) (f (s_errors s)) (s_executables s) (s_names s) (s_processes s).
Definition set_executables (f : list string → list string) (s : snitch) : snitch :=
  Snitch (s_config s) (s_errors s) (f (s_executables s)) (s_names s) (s_processes s).
Definition set_names (f : list string → list string) (s : snitch) : snitch :=
  Snitch (s_config s) (s_errors s) (s_executables s) (f (s_names s)) (s_processes s).
Definition set_processes (f : gmap string proc_entry → gmap string proc_entry) (s : snitch) : snitch :=
  Snitch (s_config s) (s_errors s) (s_executables s) (s_names s) (f (s_processes s)).

Definition set_name (f : string → string) (e : proc_entry) : proc_entry :=
  Entry (f (e_name e)) (e_cmdlines e) (e_first_seen e) (e_last_seen e)
        (e_days_seen e) (e_remote_addresses e).
Definition set_cmdlines (f : list string → list string) (e : proc_entry) : proc_entry :=
  Entry (e_name e) (f (e_cmdlines e)) (e_first_seen e) (e_last_seen e)
        (e_days_seen e) (e_remote_addresses e).
Definition set_last_seen (f : string → string) (e : proc_entry) : proc_entry :=
  Entry (e_name e) (e_cmdlines e) (e_first_seen e) (f (e_last_seen e))
        (e_days_seen e) (e_remote_addresses e).
Definition set_days_seen (f : Z → Z) (e : proc_entry) : proc_entry :=
  Entry (e_name e) (e_cmdlines e) (e_first_seen e) (e_last_seen e)
        (f (e_days_seen e)) (e_remote_addresses e).
Definition set_remote_addresses (f : list string → list string) (e : proc_entry) : proc_entry :=
  Entry (e_name e) (e_cmdlines e) (e_first_seen e) (e_last_seen e)
        (e_days_seen e) (f (e_remote_addresses e)).

(** [toast]: the notification is shown, or printed to [file] when the
    notifier raises; either way the message is out. *)
Definition toast (msg : string) (file : stream) : M heap unit :=
  modify (set_out (λ o, o ++ [(file, msg)])).

(** ** The attribution engine *)

Section attribution.

(** [str] of a Python list of strings (the [repr] of each element between
    brackets). *)
Context (str_list : list string → string).

(** [str(proc["cmdline"])]. *)
Definition str_cmdline (c : cmdline) : string :=
  match c with
  | CmdList args => str_list args
  | CmdStr s => s
  end.

Definition new_entry (proc : procinfo) (raddr_ip ctime : string) : M heap unit :=
  modify (set_snitch (set_executables (λ l, l ++ [p_exe proc])));;
  modify (set_snitch (set_names (λ l, l ++ [p_name proc])));;
  names ← gets (s_names ∘ h_snitch);
  (if decide (1 < Py.count (p_name proc) names)%nat
   then names' ← or_raise IndexError
          (Py.update_last (λ x, x +:+ " (different executable location)") names);
        modify (set_snitch (set_names (λ _, names')))
   else mret tt);;
  modify (set_snitch (set_processes (<[p_exe proc :=
    Entry (p_name proc) [str_cmdline (p_cmdline proc)] ctime ctime 1 [raddr_ip]]>)));;
  toast ("First network connection detected for " +:+ p_name proc) Stdout.

(** The calendar-date portion of a [time.ctime()] string as the code takes
    it: [ctime.split()[:3]], the day name, the month and the day. *)
Definition date_of (ctime : string) : list string := take 3 (Py.split ctime).

(** The calendar date of a [time.ctime()] string,
    'Www Mmm dd hh:mm:ss yyyy', as the specification speaks of it: the
    day with its month and its year, the time of day left out. *)
Definition calendar_date (ctime : string) : list string :=
  let words := Py.split ctime in take 3 words ++ drop 4 words.

(** The statements of [update_entry] on the entry itself, in order. *)
Definition update_fields (proc : procinfo) (raddr_ip ctime : string) (entry : proc_entry) : proc_entry :=
  let entry :=
    if negb (Py.str_contains (e_name entry) (p_name proc))
    then set_name (λ n, n +:+ (" alternative=" +:+ p_name proc)) entry
    else entry in
  let entry :=
    if negb (Py.list_contains (e_cmdlines entry) (str_cmdline (p_cmdline proc)))
    then set_cmdlines (λ l, l ++ [str_cmdline (p_cmdline proc)]) entry
    else entry in
  let entry :=
    if negb (Py.list_contains (e_remote_addresses entry) raddr_ip)
    then set_remote_addresses (λ l, l ++ [raddr_ip]) entry
    else entry in
  let entry :=
    if decide (date_of ctime ≠ date_of (e_last_seen entry))
    then set_days_seen (λ d, d + 1) entry
    else entry in
  set_last_seen (λ _, ctime) entry.

(** [entry] is the object stored in [Processes]: what is done to it is
    done to the dictionary. *)
Definition update_entry (proc : procinfo) (raddr_ip ctime : string) : M heap unit :=
  procs ← gets (s_processes ∘ h_snitch);
  entry ← or_raise KeyError (procs !! p_exe proc);
  modify (set_snitch (set_processes
    (<[p_exe proc := update_fields proc raddr_ip ctime entry]>))).

End attribution.

(** ** The poller *)

(** What the file system answers to one call of [write]. *)
Record disk := Disk {
  makedirs_ok : bool;             (* whether [os.makedirs] makes the directory, asked
                                     when it is missing *)
  open_ok : bool;                 (* whether [open(file_path, "w")] opens the file,
                                     which empties it *)
  dump_stops : option string      (* [Some text] when [json.dump] (or closing the
                                     file) raises, [text] being what the file is left
                                     with *)
}.

(** A disk that takes the write. *)
Definition writable : disk := Disk true true None.

(** What one tick reads from outside. *)
Record tick_env := TickEnv {
  now : string;                              (* time.ctime() *)
  net_connections : list sconn;              (* psutil.net_connections(kind='inet') *)
  process_as_dict : sconn → option procinfo; (* psutil.Process(conn.pid).as_dict(...),
                                                [None] when it raises; asked once for
                                                each connection, so it may answer
                                                differently for two connections of one pid *)
  captured : list packet;                    (* what the capture queue hands out while
                                                it is drained *)
  storage : disk                             (* what the file system answers, should
                                                the state be written after the tick *)
}.

(** The frame of [poll]: the shared objects and the local [proc]. *)
Record frame := Frame { fr_heap : heap; fr_proc : procinfo }.

Definition on_heap {A} (m : M heap A) : M frame A :=
  zoom fr_heap (λ h f, Frame h (fr_proc f)) m.

Definition in_frame {A} (proc : procinfo) (m : M frame A) : M heap A := λ h,
  let '(r, f) := m (Frame h proc) in (r, fr_heap f).

Definition set_proc (proc : procinfo) : M frame unit :=
  modify (λ f, Frame (fr_heap f) proc).

(** [conn.pid == proc["pid"]]: [None] equals no [int] and not [""]. *)
Definition pid_eq (conn_pid proc_pid : option Z) : bool :=
  match conn_pid, proc_pid with
  | Some a, Some b => bool_decide (a = b)
  | _, _ => false
  end.

(** [str(proc["pid"])]. *)
Definition str_pid (proc_pid : option Z) : string :=
  match proc_pid with
  | Some z => pretty z
  | None => ""
  end.

(** The heap with the candidate of the connection's local port taken out:
    [pcap_dict.pop(conn.laddr.port, None)]. *)
Definition popped (conn : sconn) (h : heap) : heap :=
  set_pcap (Dict.pop (a_port (c_laddr conn))) h.

Definition append_error (msg : string) : M heap unit :=
  modify (set_snitch (set_errors (λ l, l ++ [msg]))).

Section poller.

Context (str_list : list string → string).

(** [ipaddress.ip_address(ip).is_private]; [None] when [ip_address]
    raises [ValueError]. *)
Context (is_private : string → option bool).

(** [str(conn)] on an [sconn]. *)
Context (str_conn : sconn → string).

(** The order in which a [for] loop goes through a set. *)
Context (set_iter : gset sconn → list sconn).

(** The body of the [try] for one new connection. *)
Definition poll_try (env : tick_env) (conn : sconn) : M frame unit :=
  match c_raddr conn with
  | None => mret tt
  | Some raddr =>
      private ← or_raise ValueError (is_private (a_ip raddr));
      if negb private then
        on_heap (modify (popped conn));;
        proc ← or_raise PsutilError (process_as_dict env conn);
        set_proc proc;;
        procs ← on_heap (gets (s_processes ∘ h_snitch));
        if decide (procs !! p_exe proc = None)
        then on_heap (new_entry str_list proc (a_ip raddr) (now env))
        else on_heap (update_entry str_list proc (a_ip raddr) (now env))
      else mret tt
  end.

(** The body of the [except Exception]. *)
Definition poll_except (env : tick_env) (conn : sconn) : M frame unit :=
  proc ← gets fr_proc;
  let error := str_conn conn in
  let error :=
    if pid_eq (c_pid conn) (p_pid proc)
    then error +:+ str_pid (p_pid proc)
    else error +:+ "{process no longer exists}" in
  on_heap (append_error (now env +:+ (" " +:+ error)));;
  on_heap (toast ("picosnitch polling error: " +:+ error) Stderr).

Definition poll_conn (env : tick_env) (conn : sconn) : M frame unit :=
  try_except (poll_try env conn) (poll_except env conn).

(** The second loop of [poll], over the keys left in [pcap_dict]: its
    body, [conn] being a key, and the loop. *)
Definition report_missed (env : tick_env) (conn : Z) : M heap unit :=
  append_error (now env +:+ (" " +:+ pretty conn));;
  toast ("picosnitch missed connection: " +:+ pretty conn) Stderr.

Definition poll_missed (env : tick_env) : M heap unit :=
  pcap_dict ← gets h_pcap;
  for_each (Dict.keys pcap_dict) (report_missed env).

(** [poll(snitch, last_connections, pcap_dict)]; [snitch] and [pcap_dict]
    are the objects of the heap. *)
Definition poll (env : tick_env) (last_connections : gset sconn) : M heap (gset sconn) :=
  let current_connections : gset sconn := list_to_set (net_connections env) in
  in_frame (Proc "" "" (CmdStr "") None)
    (for_each (set_iter (current_connections ∖ last_connections)) (poll_conn env));;
  poll_missed env;;
  mret current_connections.

End poller.

(** ** The state store *)

(** What [json.load] makes of a text. *)
Inductive loaded :=
  | Malformed                    (* json.load raises *)
  | MissingKey                   (* a document without one of the five keys *)
  | Document (data : snitch).

(** The float [0.2]. *)
Definition float_0_2 : float := 0x1.999999999999ap-3%float.

Definition default_snitch : snitch :=
  Snitch (Config (NFloat float_0_2) (NInt 600) false) [] [] [] ∅.

Section store.

(** [json.dump(snitch, indent=2, separators=(',', ': '), sort_keys=True,
    ensure_ascii=False)] as UTF-8 text, and [json.load]. *)
Context (json_dump : snitch → string) (json_load : string → loaded).

Definition read : M heap snitch :=
  file ← gets (fs_file ∘ h_fs);
  match file with
  | Some text =>
      match json_load text with
      | Malformed => raise JSONDecodeError
      | MissingKey => raise AssertionError
      | Document data => mret data
      end
  | None => mret default_snitch
  end.

(** [write(snitch)]. [os.makedirs] stands before the [try]: what it
    raises leaves [write]. Inside the [try], [open(file_path, "w")] empties
    the file before [json.dump] writes, so a dump that raises leaves the
    file with what had been written, not with what it held. *)
Definition write (d : disk) : M heap unit :=
  dir ← gets (fs_dir ∘ h_fs);
  (if negb dir
   then (if makedirs_ok d then modify (set_fs (λ f, Fs true (fs_file f)))
         else raise OSError)
   else mret tt);;
  try_except
    ((if open_ok d then modify (set_fs (λ f, Fs (fs_dir f) (Some "")))
      else raise OSError);;
     snitch ← gets h_snitch;
     match dump_stops d with
     | Some text => modify (set_fs (λ f, Fs (fs_dir f) (Some text)));; raise OSError
     | None => modify (set_fs (λ f, Fs (fs_dir f) (Some (json_dump snitch))))
     end)
    (toast "picosnitch write error" Stderr).

(** [terminate(snitch, process)], what the handlers of SIGTERM and SIGINT
    call: the state is written and the process exits (the capture process
    is outside the model). *)
Definition terminate (d : disk) : M heap unit :=
  write d;;
  raise SystemExit.

End store.

(** ** The run loop *)

(** The locals of [loop] that outlive an iteration, next to the heap.
    [l_queue] tells whether [queue] is a queue ([true]) or [None]. *)
Record loop_st := LoopSt {
  l_heap : heap;
  l_queue : bool;
  l_connections : gset sconn;
  l_polling_interval : number;
  l_write_counter : Z;
  l_counter : Z
}.

Definition in_loop {A} (m : M heap A) : M loop_st A :=
  zoom l_heap (λ h l, LoopSt h (l_queue l) (l_connections l)
                        (l_polling_interval l) (l_write_counter l) (l_counter l)) m.

Definition set_connections (c : gset sconn) (l : loop_st) : loop_st :=
  LoopSt (l_heap l) (l_queue l) c (l_polling_interval l) (l_write_counter l) (l_counter l).
Definition set_counter (n : Z) (l : loop_st) : loop_st :=
  LoopSt (l_heap l) (l_queue l) (l_connections l) (l_polling_interval l)
         (l_write_counter l) n.

(** The names [loop] assigns, and the names bound at module level (the
    imports and the functions). A name read in [loop] that is in neither
    list (and is no builtin) raises [NameError]. *)
Definition loop_locals : list string :=
  ["snitch"; "pcap_proc"; "queue"; "pcap_dict"; "connections";
   "polling_interval"; "write_counter"; "counter"; "known_ports"; "packet"].
Definition module_globals : list string :=
  ["ipaddress"; "json"; "multiprocessing"; "os"; "signal"; "sys"; "time";
   "typing"; "plyer"; "psutil"; "read"; "write"; "terminate"; "poll";
   "new_entry"; "update_entry"; "loop"; "toast"; "init_pcap"; "main"].
Definition bound_in_loop (name : string) : bool :=
  bool_decide (name ∈ loop_locals ++ module_globals).

(** The inner [while not queue.empty()] of [loop], [queue] being what the
    capture queue hands out. The packet is taken with [q.get()]: [q_bound]
    tells whether the name [q] is bound (to the queue); when it is not,
    reading it raises [NameError]. *)
Fixpoint drain_with (q_bound : bool) (queue : list packet) (known_ports : list Z)
  : M heap unit :=
  match queue with
  | [] => mret tt
  | packet :: queue' =>
      (if q_bound then mret tt else raise NameError);;
      (if decide (k_laddr_port packet ∉ known_ports)
       then modify (set_pcap (Dict.set (k_laddr_port packet) packet))
       else mret tt);;
      drain_with q_bound queue' known_ports
  end.

(** The drain as [loop] has it. *)
Definition drain : list packet → list Z → M heap unit :=
  drain_with (bound_in_loop "q").

Section run_loop.

Context (str_list : list string → string).
Context (is_private : string → option bool).
Context (str_conn : sconn → string).
Context (set_iter : gset sconn → list sconn).
Context (json_dump : snitch → string) (json_load : string → loaded).

(** [int(a / b)] on two numbers of the configuration. *)
Context (int_truediv : number → number → exn + Z).

(** Whether [time.sleep] refuses the length (a negative one). *)
Context (sleep_refuses : number → bool).

(** Whether the module is run as a script ([__name__ == "__main__"]) and
    whether scapy can be imported. *)
Context (as_script scapy_installed : bool).

(** One iteration of the [while True] of [loop]. *)
Definition loop_body (env : tick_env) : M loop_st unit :=
  queue ← gets l_queue;
  (if (queue : bool) then
     in_loop (modify (set_pcap (λ _, [])));;
     connections ← gets l_connections;
     let known_ports := (a_port ∘ c_laddr) <$> set_iter connections in
     in_loop (drain (captured env) known_ports)
   else mret tt);;
  last_connections ← gets l_connections;
  connections ← in_loop (poll str_list is_private str_conn set_iter env last_connections);
  modify (set_connections connections);;
  polling_interval ← gets l_polling_interval;
  (if sleep_refuses polling_interval then raise ValueError else mret tt);;
  counter ← gets l_counter;
  write_counter ← gets l_write_counter;
  if Z.geb counter write_counter
  then in_loop (write json_dump (storage env));;
       modify (set_counter 0)
  else modify (set_counter (counter + 1)).

(** [init_pcap(snitch)], as to whether [queue] is a queue. With capture
    configured scapy is imported, which raises when it is not installed;
    the capture process and its queue are made only under
    [__name__ == "__main__"], and [None, None] is returned otherwise. *)
Definition init_pcap (snitch : snitch) : exn + bool :=
  if use_pcap (s_config snitch)
  then (if scapy_installed then inr as_script else inl ImportError)
  else inr false.

(** [loop] up to the [while]: the heap and the locals it starts with. *)
Definition loop_init : M heap loop_st :=
  snitch ← read json_load;
  modify (set_snitch (λ _, snitch));;
  queue ← match init_pcap snitch with inl e => raise e | inr queue => mret queue end;
  modify (set_pcap (λ _, []));;
  let polling_interval := polling_interval (s_config snitch) in
  match int_truediv (write_interval (s_config snitch)) polling_interval with
  | inl e => raise e
  | inr write_counter =>
      h ← gets id;
      mret (LoopSt h queue ∅ polling_interval write_counter 0)
  end.

(** The iterations of [loop], one for each element of [envs], as long as
    none raises. *)
Definition loop_run (envs : list tick_env) : M loop_st unit :=
  for_each envs loop_body.

End run_loop.

(** ** Runs of the poller *)

Section runs.

Context (str_list : list string → string).
Context (is_private : string → option bool).
Context (str_conn : sconn → string).
Context (set_iter : gset sconn → list sconn).

(** [poll] called with the candidate map [pcap_dict]. *)
Definition poll_with (env : tick_env) (pcap_dict : Dict.t) (last_connections : gset sconn)
  : M heap (gset sconn) :=
  modify (set_pcap (λ _, pcap_dict));;
  poll str_list is_private str_conn set_iter env last_connections.

(** One call of [poll] after the other, each with its own clock, tables
    and candidate map, the snapshot one call returns being the
    [last_connections] of the next. *)
Fixpoint poll_ticks (ticks : list (tick_env * Dict.t)) (last_connections : gset sconn)
  : M heap (gset sconn) :=
  match ticks with
  | [] => mret last_connections
  | (env, pcap_dict) :: ticks' =>
      connections ← poll_with env pcap_dict last_connections;
      poll_ticks ticks' connections
  end.

(** The executable a connection is attributed to: the connection has a
    remote address, the address is public and the owner is resolved. *)
Definition resolved_exe (env : tick_env) (conn : sconn) : option string :=
  match c_raddr conn with
  | Some raddr =>
      match is_private (a_ip raddr) with
      | Some false => p_exe <$> process_as_dict env conn
      | _ => None
      end
  | None => None
  end.

(** A connection [poll] looks at: it has a remote address and the
    address is not private. *)
Definition public (conn : sconn) : Prop :=
  ∃ raddr, c_raddr conn = Some raddr ∧ is_private (a_ip raddr) = Some false.

(** [exe] is the executable of a connection that was new in one of the
    ticks. *)
Fixpoint observed (ticks : list (tick_env * Dict.t)) (last_connections : gset sconn)
    (exe : string) : Prop :=
  match ticks with
  | [] => False
  | (env, _) :: ticks' =>
      let current_connections : gset sconn := list_to_set (net_connections env) in
      (∃ conn, conn ∈ current_connections ∖ last_connections ∧
               resolved_exe env conn = Some exe) ∨
      observed ticks' current_connections exe
  end.

(** The record [poll] leaves of a resolved connection: its executable has
    an entry that holds the address, the command line and the name, last
    seen at the time of the tick. *)
Definition attributed (env : tick_env) (conn : sconn) (s : snitch) : Prop :=
  ∀ raddr proc,
    c_raddr conn = Some raddr →
    is_private (a_ip raddr) = Some false →
    process_as_dict env conn = Some proc →
    ∃ entry, s_processes s !! p_exe proc = Some entry ∧
             a_ip raddr ∈ e_remote_addresses entry ∧
             str_cmdline str_list (p_cmdline proc) ∈ e_cmdlines entry ∧
             Py.str_contains (e_name entry) (p_name proc) = true ∧
             e_last_seen entry = now env.

(** The diagnostics of the two loops of [poll]. *)
Definition missed_diagnostic (env : tick_env) (port : Z) : string :=
  now env +:+ (" " +:+ pretty port).

Definition polling_diagnostic (env : tick_env) (conn : sconn) (error : string) : Prop :=
  ∃ tail, error = now env +:+ (" " +:+ (str_conn conn +:+ tail)).

(** The [error] of the [except] for [conn] when the local [proc] is
    [proc]. *)
Definition polling_error (conn : sconn) (proc : procinfo) : string :=
  str_conn conn +:+
  (if pid_eq (c_pid conn) (p_pid proc) then str_pid (p_pid proc)
   else "{process no longer exists}").

(** How the [try] for a connection ends: the connection is skipped, a
    statement raises (before or after the candidate was popped), or the
    owner is resolved. *)
Inductive outcome :=
  | Skipped
  | Failed (popped : bool)
  | Resolved (raddr : addr) (proc : procinfo).

Definition classify (env : tick_env) (conn : sconn) : outcome :=
  match c_raddr conn with
  | None => Skipped
  | Some raddr =>
      match is_private (a_ip raddr) with
      | None => Failed false
      | Some true => Skipped
      | Some false =>
          match process_as_dict env conn with
          | None => Failed true
          | Some proc => Resolved raddr proc
          end
      end
  end.

End runs.

(** A call of the attribution engine. *)
Inductive call :=
  | Create (proc : procinfo) (raddr_ip ctime : string)
  | Update (proc : procinfo) (raddr_ip ctime : string).

Definition run_call (str_list : list string → string) (c : call) : M heap unit :=
  match c with
  | Create proc raddr_ip ctime => new_entry str_list proc raddr_ip ctime
  | Update proc raddr_ip ctime => update_entry str_list proc raddr_ip ctime
  end.

(** ** The drain of the capture queue as it is specified

    Every record of the queue is taken; it goes into the candidate map
    under its local port unless that port is the local port of a known
    connection. *)
Fixpoint drain_spec (queue : list packet) (known_ports : list Z) (pcap_dict : Dict.t)
  : Dict.t :=
  match queue with
  | [] => pcap_dict
  | packet :: queue' =>
      drain_spec queue' known_ports
        (if decide (k_laddr_port packet ∉ known_ports)
         then Dict.set (k_laddr_port packet) packet pcap_dict
         else pcap_dict)
  end.

(** ** A concrete environment

    Stand-ins for the libraries, used to run the definitions: a table of
    addresses for [ipaddress], a short [str] for connections and lists,
    and the order of [elements] for sets. *)

Module Demo.

Definition is_private (ip : string) : option bool :=
  if decide (ip = "93.184.216.34") then Some false
  else if decide (ip = "8.8.8.8") then Some false
  else if decide (ip = "192.168.1.7") then Some true
  else if decide (ip = "127.0.0.1") then Some true
  else None.

Definition str_conn (conn : sconn) : string :=
  "sconn(fd=" +:+ (pretty (c_fd conn) +:+ (", pid=" +:+ (str_pid (c_pid conn) +:+ ")"))).

Definition str_list (l : list string) : string :=
  "[" +:+ (String.concat ", " ((λ s, "'" +:+ (s +:+ "'")) <$> l) +:+ "]").

Definition set_iter (X : gset sconn) : list sconn := elements X.

Definition json_dump (s : snitch) : string :=
  "{" +:+ (String.concat "," (s_executables s) +:+ "}").

Definition conn1 : sconn :=
  SConn 3 2 1 (Addr "192.168.1.7" 50000) (Some (Addr "93.184.216.34" 443))
        "ESTABLISHED" (Some 4242).
Definition conn2 : sconn :=
  SConn 4 2 1 (Addr "192.168.1.7" 50001) (Some (Addr "8.8.8.8" 53))
        "ESTABLISHED" (Some 4242).
Definition conn_local : sconn :=
  SConn 5 2 1 (Addr "127.0.0.1" 8080) (Some (Addr "127.0.0.1" 50002))
        "ESTABLISHED" (Some 77).
Definition conn_listen : sconn :=
  SConn 6 2 1 (Addr "0.0.0.0" 22) None "LISTEN" (Some 1).

Definition curl : procinfo :=
  Proc "curl" "/usr/bin/curl" (CmdList ["curl"; "example.com"]) (Some 4242).
Definition curl_local : procinfo :=
  Proc "curl" "/usr/local/bin/curl" (CmdList ["curl"]) (Some 4243).

Definition t1 : string := "Mon Jan  1 00:00:00 2024".
Definition t2 : string := "Tue Jan  2 00:00:00 2024".

Definition env1 : tick_env := TickEnv t1 [conn1] (λ _, Some curl) [] writable.
Definition env2 : tick_env := TickEnv t2 [conn1; conn2] (λ _, Some curl) [] writable.

(** A tick in which the owner of [conn1] is gone and [conn2] resolves. *)
Definition env_gone : tick_env :=
  TickEnv t1 [conn1; conn2]
    (λ conn, if decide (conn = conn1) then None else Some curl) [] writable.

Definition pkt : packet := Packet "outgoing" "192.168.1.7" 50009 "93.184.216.34".
Definition env_captured : tick_env := TickEnv t1 [] (λ _, None) [pkt] writable.

Definition heap0 : heap := Heap default_snitch [] [] (Fs false None).

(** A heap whose candidate map holds [pkt]. *)
Definition heap_pkt : heap := Heap default_snitch [(50009, pkt)] [] (Fs false None).

Definition sleep_refuses (n : number) : bool :=
  match n with
  | NInt z => (z <? 0)%Z
  | NFloat f => PrimFloat.ltb f 0%float
  end.

(** The locals of [loop] after its first lines, capture being configured,
    [int(600 / 0.2)] being 3000. *)
Definition loop0 : loop_st := LoopSt heap0 true ∅ (NFloat float_0_2) 3000 0.

End Demo.

(** ** What grows

    [Errors], [Executables], [Names] and the lists of an entry are only
    appended to, and the name of an entry only gets alternatives. *)

Definition entry_grows (old new : proc_entry) : Prop :=
  e_first_seen new = e_first_seen old ∧
  (∃ more, e_name new = e_name old +:+ more) ∧
  e_cmdlines old `prefix_of` e_cmdlines new ∧
  e_remote_addresses old `prefix_of` e_remote_addresses new ∧
  (e_days_seen old ≤ e_days_seen new)%Z.

Definition snitch_grows (old new : snitch) : Prop :=
  s_config new = s_config old ∧
  s_errors old `prefix_of` s_errors new ∧
  s_executables old `prefix_of` s_executables new ∧
  s_names old `prefix_of` s_names new ∧
  ∀ exe entry, s_processes old !! exe = Some entry →
    ∃ entry', s_processes new !! exe = Some entry' ∧ entry_grows entry entry'.



(** [Executables] lists the keys of [Processes], each once, and [Names]
    runs beside it. *)
Definition trail_mirrors (s : snitch) : Prop :=
  NoDup (s_executables s) ∧
  length (s_executables s) = length (s_names s) ∧
  ∀ exe, exe ∈ s_executables s ↔ exe ∈ dom (s_processes s).


(** The lists of every entry are sets: not empty, nothing twice. *)
Definition entries_are_sets (s : snitch) : Prop :=
  ∀ exe entry, s_processes s !! exe = Some entry →
    NoDup (e_cmdlines entry) ∧ e_cmdlines entry ≠ [] ∧
    NoDup (e_remote_addresses entry) ∧ e_remote_addresses entry ≠ [].

Global Instance stream_eq_dec : EqDecision stream.
Proof. solve_decision. Defined.

(** ** The capture process

    The callbacks [init_pcap] gives to scapy's [sniff]. A packet is what
    the callbacks read of it: the source and the destination of its IP
    layer ([None] without such a layer: [getlayer] returns [None] and
    reading [.src] raises) and its ports ([None] for a packet without
    ports: reading [packet.sport] raises). *)

Record raw_packet := Raw {
  r_ip : option (string * string);
  r_sport : option Z;
  r_dport : option Z
}.

Inductive sniff_exn :=
  | AttributeError      (* no IP layer, or no port *)
  | AddressError.       (* ipaddress.ip_address raises ValueError *)

(** What [parse_packet] returns: a record for the queue, or the empty
    dictionary ([None]). *)
Definition parsed : Type := option packet.

Section capture.

Context (is_private : string → option bool).

(** [parse_packet]: [src] is looked at first, [dst] only when [src] is
    not private. *)
Definition parse_packet (packet : raw_packet) : sniff_exn + parsed :=
  match r_ip packet with
  | None => inl AttributeError
  | Some (src, dst) =>
      match is_private src with
      | None => inl AddressError
      | Some true =>
          match r_sport packet with
          | None => inl AttributeError
          | Some sport => inr (Some (Packet "outgoing" src sport dst))
          end
      | Some false =>
          match is_private dst with
          | None => inl AddressError
          | Some true =>
              match r_dport packet with
              | None => inl AttributeError
              | Some dport => inr (Some (Packet "incoming" dst dport src))
              end
          | Some false => inr None
          end
      end
  end.

(** [filter_packet]: whatever raises in it makes it [False]. *)
Definition filter_packet (packet : raw_packet) : bool :=
  match r_ip packet with
  | None => false
  | Some (src, dst) =>
      match is_private src, is_private dst with
      | Some src_private, Some dst_private => negb (eqb src_private dst_private)
      | _, _ => false
      end
  end.

End capture.

(** ** More concrete values *)

Module Sample.

(** A heap in which /usr/bin/curl has an entry, last seen at [Demo.t1]. *)
Definition heap1 : heap :=
  (new_entry Demo.str_list Demo.curl "93.184.216.34" Demo.t1 Demo.heap0).2.

(** The same with a candidate under the local port of [Demo.conn2] and
    one under a port of no connection. *)
Definition heap_candidates : heap :=
  set_pcap (λ _, [(50001, Demo.pkt); (50009, Demo.pkt)]) heap1.

(** A tick that sees [Demo.conn1] and [Demo.conn2], the owner of which is
    curl. *)
Definition env_both : tick_env :=
  TickEnv Demo.t2 [Demo.conn1; Demo.conn2] (λ _, Some Demo.curl) [] writable.

(** A tick in which curl resolves for [Demo.conn1] and the owner of
    [Demo.conn2], of the same pid, is gone. *)
Definition env_stale : tick_env :=
  TickEnv Demo.t2 [Demo.conn1; Demo.conn2]
    (λ conn, if decide (conn = Demo.conn1) then Some Demo.curl else None) [] writable.

(** A tick during which the disk fills up while the state is written. *)
Definition env_disk_full : tick_env :=
  TickEnv Demo.t2 [Demo.conn1] (λ _, Some Demo.curl) [] (Disk true true (Some "{")).

(** A tick five years after [Demo.t1], on the same day of the year, that
    sees [Demo.conn1] and [Demo.conn2]. *)
Definition t_2029 : string := "Mon Jan  1 23:59:59 2029".
Definition env_2029 : tick_env :=
  TickEnv t_2029 [Demo.conn1; Demo.conn2] (λ _, Some Demo.curl) [] writable.

Definition int_truediv (a b : number) : exn + Z :=
  match a, b with
  | NInt 600, NFloat _ => inr 3000
  | _, _ => inl ZeroDivisionError
  end.

(** The state file reread as the one state the stand-in for [json]
    knows. *)
Definition json_dump (s : snitch) : string :=
  "{" +:+ (String.concat "," (s_executables s) +:+ "}").
Definition json_load (text : string) : loaded :=
  if decide (text = "{/usr/bin/curl}") then Document (h_snitch heap1) else Malformed.

(** Packets: out of the private network, into it, within it, and one
    without an IP layer. *)
Definition packet_out : raw_packet :=
  Raw (Some ("192.168.1.7", "93.184.216.34")) (Some 50000) (Some 443).
Definition packet_in : raw_packet :=
  Raw (Some ("93.184.216.34", "192.168.1.7")) (Some 443) (Some 50000).
Definition packet_local : raw_packet :=
  Raw (Some ("192.168.1.7", "127.0.0.1")) (Some 50000) (Some 8080).
Definition packet_arp : raw_packet := Raw None None None.


End Sample.

(** * Properties *)

(** ** Strings and lists *)

Lemma prefix_refl (s : string) : String.prefix s s = true.
Proof.
  induction s as [|a s IH]; simpl; [done|].
  by destruct (Ascii.ascii_dec a a).
Qed.

Lemma prefix_app (n a b : string) :
  String.prefix n a = true → String.prefix n (a +:+ b) = true.
Proof.
  revert a. induction n as [|c n IH]; intros a H; [by destruct (a +:+ b)|].
  destruct a as [|c' a]; simpl in *; [done|].
  destruct (Ascii.ascii_dec c c'); [by apply IH | done].
Qed.



Example split_ctime :
  Py.split "Mon Jan  1 00:00:00 2024" = ["Mon"; "Jan"; "1"; "00:00:00"; "2024"].
Proof. reflexivity. Qed.

Lemma str_contains_refl (s : string) : Py.str_contains s s = true.
Proof.
  destruct s as [|a s]; [reflexivity|].
  change (Py.str_contains (String a s) (String a s))
    with (String.prefix (String a s) (String a s) || Py.str_contains s (String a s)).
  by rewrite prefix_refl.
Qed.

Lemma str_contains_app_l (a b n : string) :
  Py.str_contains a n = true → Py.str_contains (a +:+ b) n = true.
Proof.
  induction a as [|c a IH]; simpl; intros H.
  - rewrite orb_false_r in H. destruct n; [|done]. by destruct b.
  - apply orb_true_iff in H as [H|H]; apply orb_true_iff.
    + left. by apply (prefix_app n (String c a) b).
    + right. by apply IH.
Qed.

Lemma str_contains_app_r (a b n : string) :
  Py.str_contains b n = true → Py.str_contains (a +:+ b) n = true.
Proof.
  induction a as [|c a IH]; simpl; intros H; [done|].
  apply orb_true_iff. right. by apply IH.
Qed.

Lemma string_length_app (a b : string) :
  String.length (a +:+ b) = (String.length a + String.length b)%nat.
Proof. induction a as [|c a IH]; simpl; [done|]. by rewrite IH. Qed.

Lemma update_last_snoc (f : string → string) (l : list string) (x : string) :
  Py.update_last f (l ++ [x]) = Some (l ++ [f x]).
Proof. unfold Py.update_last. by rewrite reverse_snoc, reverse_involutive. Qed.

Lemma list_contains_true (l : list string) (x : string) :
  Py.list_contains l x = true ↔ x ∈ l.
Proof. unfold Py.list_contains. by rewrite bool_decide_eq_true. Qed.

Lemma count_pos (x : string) (l : list string) : x ∈ l → (0 < Py.count x l)%nat.
Proof.
  intros H. unfold Py.count.
  assert (x ∈ filter (λ y, y = x) l) as Hin by (by apply list_elem_of_filter).
  destruct (filter (λ y, y = x) l); [by apply elem_of_nil in Hin | simpl; lia].
Qed.

Lemma count_zero (x : string) (l : list string) : x ∉ l → Py.count x l = 0%nat.
Proof.
  intros H. unfold Py.count.
  destruct (filter (λ y, y = x) l) as [|y l'] eqn:E; [done|].
  assert (y ∈ filter (λ y, y = x) l) as Hin by (rewrite E; left).
  apply list_elem_of_filter in Hin as [-> Hin]. done.
Qed.

Lemma count_snoc (x y : string) (l : list string) :
  Py.count x (l ++ [y]) = (Py.count x l + (if decide (y = x) then 1 else 0))%nat.
Proof.
  unfold Py.count. rewrite filter_app, length_app. f_equal.
  rewrite filter_cons, filter_nil. by destruct (decide (y = x)).
Qed.

Lemma string_app_inj (s a b : string) : s +:+ a = s +:+ b → a = b.
Proof. induction s as [|c s IH]; simpl; [done|]. intros [= H]. by apply IH. Qed.

Lemma filter_eq_once {A} `{EqDecision A} (l : list A) (x : A) :
  NoDup l → x ∈ l → length (filter (λ y, y = x) l) = 1%nat.
Proof.
  induction l as [|y l IH]; intros Hnd Hin; [by apply elem_of_nil in Hin|].
  apply NoDup_cons in Hnd as [Hy Hnd]. rewrite filter_cons.
  destruct (decide (y = x)) as [->|Hne].
  - simpl. f_equal. apply length_zero_iff_nil.
    destruct (filter (λ y, y = x) l) as [|z l'] eqn:E; [done|].
    assert (z ∈ filter (λ y, y = x) l) as Hz by (rewrite E; left).
    apply list_elem_of_filter in Hz as [-> Hz]. done.
  - apply IH; [done|]. apply elem_of_cons in Hin as [->|Hin]; done.
Qed.

(** ** The attribution engine, statement by statement *)

Ltac munfold :=
  unfold mbind, mret, M_bind, M_ret, gets, modify, raise, or_raise, zoom,
         try_except, toast, append_error, on_heap, in_frame, in_loop, set_proc.

Section attribution_facts.

Context (str_list : list string → string).

(** What [new_entry] leaves: it does not raise. *)
Lemma new_entry_run (proc : procinfo) (raddr_ip ctime : string) (h : heap) :
  new_entry str_list proc raddr_ip ctime h =
  (inr tt,
   Heap (Snitch (s_config (h_snitch h)) (s_errors (h_snitch h))
           (s_executables (h_snitch h) ++ [p_exe proc])
           (s_names (h_snitch h) ++
              [if decide (p_name proc ∈ s_names (h_snitch h))
               then p_name proc +:+ " (different executable location)"
               else p_name proc])
           (<[p_exe proc := Entry (p_name proc) [str_cmdline str_list (p_cmdline proc)]
                              ctime ctime 1 [raddr_ip]]> (s_processes (h_snitch h))))
        (h_pcap h)
        (h_out h ++ [(Stdout, "First network connection detected for " +:+ p_name proc)])
        (h_fs h)).
Proof.
  destruct h as [[cfg errs exes names procs] pcap out fsys].
  unfold new_entry. munfold. simpl.
  rewrite count_snoc. destruct (decide (p_name proc = p_name proc)) as [_|]; [|done].
  destruct (decide (p_name proc ∈ names)) as [Hin|Hout].
  - apply count_pos in Hin.
    destruct (decide (1 < Py.count (p_name proc) names + 1)%nat); [|lia].
    by rewrite update_last_snoc.
  - rewrite (count_zero _ _ Hout).
    by destruct (decide (1 < 0 + 1)%nat); [lia|].
Qed.

Lemma update_entry_run (proc : procinfo) (raddr_ip ctime : string) (h : heap)
    (entry : proc_entry) :
  s_processes (h_snitch h) !! p_exe proc = Some entry →
  update_entry str_list proc raddr_ip ctime h =
  (inr tt,
   set_snitch (set_processes
     (<[p_exe proc := update_fields str_list proc raddr_ip ctime entry]>)) h).
Proof. intros H. unfold update_entry. munfold. simpl. by rewrite H. Qed.

Lemma update_entry_missing (proc : procinfo) (raddr_ip ctime : string) (h : heap) :
  s_processes (h_snitch h) !! p_exe proc = None →
  update_entry str_list proc raddr_ip ctime h = (inl KeyError, h).
Proof. intros H. unfold update_entry. munfold. simpl. by rewrite H. Qed.

(** The entry [update_entry] leaves, field by field. *)
Lemma update_fields_run proc raddr_ip ctime entry :
  update_fields str_list proc raddr_ip ctime entry =
  Entry
    (if Py.str_contains (e_name entry) (p_name proc) then e_name entry
     else e_name entry +:+ (" alternative=" +:+ p_name proc))
    (if decide (str_cmdline str_list (p_cmdline proc) ∈ e_cmdlines entry)
     then e_cmdlines entry
     else e_cmdlines entry ++ [str_cmdline str_list (p_cmdline proc)])
    (e_first_seen entry)
    ctime
    (if decide (date_of ctime = date_of (e_last_seen entry)) then e_days_seen entry
     else e_days_seen entry + 1)
    (if decide (raddr_ip ∈ e_remote_addresses entry) then e_remote_addresses entry
     else e_remote_addresses entry ++ [raddr_ip]).
Proof.
  destruct entry as [name cmdlines first last days remote].
  unfold update_fields, Py.list_contains. simpl.
  destruct (Py.str_contains name (p_name proc)); simpl;
    (destruct (decide (str_cmdline str_list (p_cmdline proc) ∈ cmdlines));
     [rewrite (bool_decide_eq_true_2 (_ ∈ cmdlines)) by done
     |rewrite (bool_decide_eq_false_2 (_ ∈ cmdlines)) by done]);
    simpl;
    (destruct (decide (raddr_ip ∈ remote));
     [rewrite (bool_decide_eq_true_2 (_ ∈ remote)) by done
     |rewrite (bool_decide_eq_false_2 (_ ∈ remote)) by done]);
    simpl;
    destruct (decide (date_of ctime = date_of last));
    destruct (decide (date_of ctime ≠ date_of last)); simpl;
    first [done | contradiction | exfalso; tauto].
Qed.

(** The date the code compares leaves the year out: it is the day name,
    the month and the day of the month. *)
Example date_of_ctime :
  date_of "Mon Jan  1 00:00:00 2024" = ["Mon"; "Jan"; "1"] ∧
  date_of "Mon Jan  1 23:59:59 2029" = ["Mon"; "Jan"; "1"].
Proof. split; reflexivity. Qed.

End attribution_facts.

(** ** The state the loop starts from *)

Lemma read_fresh (json_load : string → loaded) (h : heap) :
  fs_file (h_fs h) = None → read json_load h = (inr default_snitch, h).
Proof. intros H. unfold read. munfold. simpl. by rewrite H. Qed.

(** Without a state file [loop] starts from the default state, with no
    queue, an empty candidate map and no connection seen. *)
Lemma loop_init_fresh (json_load : string → loaded)
    (int_truediv : number → number → exn + Z) (as_script scapy_installed : bool)
    (h : heap) (write_counter : Z) :
  fs_file (h_fs h) = None →
  int_truediv (NInt 600) (NFloat float_0_2) = inr write_counter →
  loop_init json_load int_truediv as_script scapy_installed h =
  (inr (LoopSt (Heap default_snitch [] (h_out h) (h_fs h)) false ∅
               (NFloat float_0_2) write_counter 0),
   Heap default_snitch [] (h_out h) (h_fs h)).
Proof.
  intros Hfile Hdiv. unfold loop_init. munfold.
  rewrite (read_fresh _ _ Hfile). simpl. by rewrite Hdiv.
Qed.

(** ** Loops *)

(** An invariant of a [for] loop that may mention the elements done. *)
Lemma for_each_inv {St A} (P : list A → St → Prop) (body : A → M St unit)
    (l : list A) (s : St) :
  P [] s →
  (∀ done x rest s, l = done ++ x :: rest → P done s →
     ∃ s', body x s = (inr tt, s') ∧ P (done ++ [x]) s') →
  ∃ s', for_each l body s = (inr tt, s') ∧ P l s'.
Proof.
  intros H0 Hstep.
  assert (∀ rest done s, l = done ++ rest → P done s →
            ∃ s', for_each rest body s = (inr tt, s') ∧ P l s') as Hgen.
  { induction rest as [|x rest IH]; intros done s0 Hl HP.
    - rewrite app_nil_r in Hl. subst done. by exists s0.
    - destruct (Hstep done x rest s0 Hl HP) as (s1 & Hx & HP1).
      destruct (IH (done ++ [x]) s1) as (s2 & Hrest & HP2).
      { by rewrite <- app_assoc. } { done. }
      exists s2. split; [|done].
      simpl. unfold mbind, M_bind. by rewrite Hx. }
  by apply (Hgen l []).
Qed.

Lemma for_each_cons {St A} (body : A → M St unit) (x : A) (l : list A) (s : St) :
  for_each (x :: l) body s =
  match body x s with
  | (inr _, s') => for_each l body s'
  | (inl e, s') => (inl e, s')
  end.
Proof. done. Qed.

(** ** The poller, connection by connection *)

Section poller_facts.

Context (str_list : list string → string).
Context (is_private : string → option bool).
Context (str_conn : sconn → string).
Context (set_iter : gset sconn → list sconn).

Lemma poll_except_run (env : tick_env) (conn : sconn) (f : frame) :
  poll_except str_conn env conn f =
  (inr tt,
   Frame (Heap (set_errors (λ l, l ++ [now env +:+ (" " +:+ polling_error str_conn conn (fr_proc f))])
                  (h_snitch (fr_heap f)))
               (h_pcap (fr_heap f))
               (h_out (fr_heap f) ++
                  [(Stderr, "picosnitch polling error: " +:+ polling_error str_conn conn (fr_proc f))])
               (h_fs (fr_heap f)))
         (fr_proc f)).
Proof.
  destruct f as [[s pcap out fsys] proc].
  unfold poll_except, polling_error. munfold. simpl.
  by destruct (pid_eq (c_pid conn) (p_pid proc)).
Qed.

Lemma poll_conn_run (env : tick_env) (conn : sconn) (f : frame) :
  poll_conn str_list is_private str_conn env conn f =
  match classify is_private env conn with
  | Skipped => (inr tt, f)
  | Failed false => poll_except str_conn env conn f
  | Failed true => poll_except str_conn env conn (Frame (popped conn (fr_heap f)) (fr_proc f))
  | Resolved raddr proc =>
      (inr tt,
       Frame (if decide (s_processes (h_snitch (fr_heap f)) !! p_exe proc = None)
              then (new_entry str_list proc (a_ip raddr) (now env)
                      (popped conn (fr_heap f))).2
              else (update_entry str_list proc (a_ip raddr) (now env)
                      (popped conn (fr_heap f))).2)
             proc)
  end.
Proof.
  destruct f as [h proc0].
  unfold poll_conn, poll_try, classify, try_except.
  destruct (c_raddr conn) as [raddr|]; [|done].
  destruct (is_private (a_ip raddr)) as [[|]|]; [done| |done].
  munfold. simpl.
  destruct (process_as_dict env conn) as [proc|]; [|done]. simpl.
  destruct (decide (s_processes (h_snitch h) !! p_exe proc = None)) as [Hnone|Hsome].
  - unfold zoom. simpl. by rewrite new_entry_run.
  - destruct (s_processes (h_snitch h) !! p_exe proc) as [entry|] eqn:E; [|done].
    unfold zoom. simpl. by rewrite (update_entry_run _ _ _ _ _ entry).
Qed.

End poller_facts.

Section poll_facts.

Context (str_list : list string → string).
Context (is_private : string → option bool).
Context (str_conn : sconn → string).
Context (set_iter : gset sconn → list sconn).

(** The three ways one turn of the first loop of [poll] can go, on a
    frame given by its parts. *)
Lemma poll_conn_skipped env conn f :
  classify is_private env conn = Skipped →
  poll_conn str_list is_private str_conn env conn f = (inr tt, f).
Proof. intros H. by rewrite poll_conn_run, H. Qed.

Lemma poll_conn_failed env conn b cfg errs exes names procs pcap out fsys proc0 :
  classify is_private env conn = Failed b →
  poll_conn str_list is_private str_conn env conn
    (Frame (Heap (Snitch cfg errs exes names procs) pcap out fsys) proc0) =
  (inr tt,
   Frame (Heap (Snitch cfg
                  (errs ++ [now env +:+ (" " +:+ polling_error str_conn conn proc0)])
                  exes names procs)
               (if b then Dict.pop (a_port (c_laddr conn)) pcap else pcap)
               (out ++ [(Stderr, "picosnitch polling error: " +:+
                                 polling_error str_conn conn proc0)])
               fsys)
         proc0).
Proof.
  intros H. rewrite poll_conn_run, H.
  destruct b; by rewrite poll_except_run.
Qed.

Lemma poll_conn_resolved env conn raddr proc cfg errs exes names procs pcap out fsys proc0 :
  classify is_private env conn = Resolved raddr proc →
  poll_conn str_list is_private str_conn env conn
    (Frame (Heap (Snitch cfg errs exes names procs) pcap out fsys) proc0) =
  (inr tt,
   Frame
     match procs !! p_exe proc with
     | None =>
         Heap (Snitch cfg errs (exes ++ [p_exe proc])
                 (names ++ [if decide (p_name proc ∈ names)
                            then p_name proc +:+ " (different executable location)"
                            else p_name proc])
                 (<[p_exe proc := Entry (p_name proc) [str_cmdline str_list (p_cmdline proc)]
                                    (now env) (now env) 1 [a_ip raddr]]> procs))
              (Dict.pop (a_port (c_laddr conn)) pcap)
              (out ++ [(Stdout, "First network connection detected for " +:+ p_name proc)])
              fsys
     | Some entry =>
         Heap (Snitch cfg errs exes names
                 (<[p_exe proc := update_fields str_list proc (a_ip raddr) (now env) entry]>
                    procs))
              (Dict.pop (a_port (c_laddr conn)) pcap) out fsys
     end
     proc).
Proof.
  intros H. rewrite poll_conn_run, H. simpl.
  destruct (procs !! p_exe proc) as [entry|] eqn:E.
  - rewrite decide_False by done.
    by rewrite (update_entry_run _ _ _ _ _ entry).
  - rewrite decide_True by done. by rewrite new_entry_run.
Qed.

(** [classify] against the executable a connection is attributed to. *)
Lemma classify_resolved env conn raddr proc :
  classify is_private env conn = Resolved raddr proc ↔
  c_raddr conn = Some raddr ∧ is_private (a_ip raddr) = Some false ∧
  process_as_dict env conn = Some proc.
Proof.
  unfold classify. split.
  - destruct (c_raddr conn) as [ra|]; [|done].
    destruct (is_private (a_ip ra)) as [[|]|] eqn:E; try done.
    destruct (process_as_dict env conn); [|done].
    intros [= -> ->]. done.
  - intros (-> & -> & ->). done.
Qed.

Lemma resolved_exe_classify env conn exe :
  resolved_exe is_private env conn = Some exe ↔
  ∃ raddr proc, classify is_private env conn = Resolved raddr proc ∧ p_exe proc = exe.
Proof.
  unfold resolved_exe, classify.
  destruct (c_raddr conn) as [ra|]; [|by split; [|intros (? & ? & ? & ?)]].
  destruct (is_private (a_ip ra)) as [[|]|];
    try (by split; [|intros (? & ? & ? & ?)]).
  destruct (process_as_dict env conn) as [proc|]; simpl.
  - split; [intros [= <-]; by exists ra, proc | by intros (? & ? & [= _ <-] & <-)].
  - by split; [|intros (? & ? & ? & ?)].
Qed.

(** The second loop of [poll]. *)
Lemma poll_missed_run env h :
  poll_missed env h =
  (inr tt,
   Heap (set_errors (λ l, l ++ (missed_diagnostic env <$> Dict.keys (h_pcap h))) (h_snitch h))
        (h_pcap h)
        (h_out h ++ ((λ port, (Stderr, "picosnitch missed connection: " +:+ pretty port))
                       <$> Dict.keys (h_pcap h)))
        (h_fs h)).
Proof.
  assert (∀ keys s pcap out fsys,
    for_each keys (report_missed env) (Heap s pcap out fsys) =
    (inr tt, Heap (set_errors (λ l, l ++ (missed_diagnostic env <$> keys)) s) pcap
               (out ++ ((λ port, (Stderr, "picosnitch missed connection: " +:+ pretty port))
                          <$> keys)) fsys)) as Hloop.
  { induction keys as [|k keys IH]; intros [cfg errs exes names procs] pcap out fsys.
    - simpl. unfold mret, M_ret, set_errors. simpl. by rewrite !app_nil_r.
    - rewrite for_each_cons. unfold report_missed at 1. munfold. simpl.
      unfold set_out, set_snitch. simpl. rewrite IH. unfold set_errors. simpl.
      by rewrite <- !app_assoc. }
  destruct h as [s pcap out fsys]. unfold poll_missed. munfold. apply Hloop.
Qed.

(** [poll] is its first loop, then its second, then the snapshot: it
    raises in no case. *)
Lemma poll_run env last h :
  ∀ f, for_each (set_iter (list_to_set (net_connections env) ∖ last))
          (poll_conn str_list is_private str_conn env)
          (Frame h (Proc "" "" (CmdStr "") None)) = (inr tt, f) →
  poll str_list is_private str_conn set_iter env last h =
  (inr (list_to_set (net_connections env)),
   Heap (set_errors (λ l, l ++ (missed_diagnostic env <$> Dict.keys (h_pcap (fr_heap f))))
           (h_snitch (fr_heap f)))
        (h_pcap (fr_heap f))
        (h_out (fr_heap f) ++
           ((λ port, (Stderr, "picosnitch missed connection: " +:+ pretty port))
              <$> Dict.keys (h_pcap (fr_heap f))))
        (h_fs (fr_heap f))).
Proof.
  intros f Hf. unfold poll. munfold. rewrite Hf. simpl.
  by rewrite poll_missed_run.
Qed.

End poll_facts.

(** One turn of the first loop from the frame [s], by cases on how the
    [try] for [x] ends; the goal is left with the frame after the turn. *)
Ltac turn is_private env x s Hc :=
  destruct s as [[[cfg errs exes names procs] pcap out fsys] proc0];
  destruct (classify is_private env x) as [|b|raddr proc] eqn:Hc;
  [ erewrite poll_conn_skipped by exact Hc
  | erewrite poll_conn_failed by exact Hc
  | erewrite poll_conn_resolved by exact Hc ];
  (eexists; split; [reflexivity|]); simpl in *.

(** ** Invariants of the first loop of [poll] *)

Section loop_facts.

Context (str_list : list string → string).
Context (is_private : string → option bool).
Context (str_conn : sconn → string).

(** The keys of [Processes] after the loop: those before it and the
    executables of the connections resolved in it. *)
Lemma poll_loop_processes env l f :
  ∃ f', for_each l (poll_conn str_list is_private str_conn env) f = (inr tt, f') ∧
    ∀ exe, is_Some (s_processes (h_snitch (fr_heap f')) !! exe) ↔
           is_Some (s_processes (h_snitch (fr_heap f)) !! exe) ∨
           ∃ conn, conn ∈ l ∧ resolved_exe is_private env conn = Some exe.
Proof.
  apply (for_each_inv (λ done f',
    ∀ exe, is_Some (s_processes (h_snitch (fr_heap f')) !! exe) ↔
           is_Some (s_processes (h_snitch (fr_heap f)) !! exe) ∨
           ∃ conn, conn ∈ done ∧ resolved_exe is_private env conn = Some exe)).
  - intros exe. split; [by left|]. intros [H|(c & Hc & _)]; [done|].
    by apply elem_of_nil in Hc.
  - intros done x rest s _ IH. turn is_private env x s Hc.
    + intros exe. rewrite IH. split; (intros [H|(c & Hin & Hr)]; [by left|right]).
      * exists c. split; [|done]. apply elem_of_app. by left.
      * exists c. split; [|done]. apply elem_of_app in Hin as [Hin|Hin]; [done|].
        apply list_elem_of_singleton in Hin as ->.
        apply resolved_exe_classify in Hr as (? & ? & Hr & _). congruence.
    + intros exe. rewrite IH. split; (intros [H|(c & Hin & Hr)]; [by left|right]).
      * exists c. split; [|done]. apply elem_of_app. by left.
      * exists c. split; [|done]. apply elem_of_app in Hin as [Hin|Hin]; [done|].
        apply list_elem_of_singleton in Hin as ->.
        apply resolved_exe_classify in Hr as (? & ? & Hr & _). congruence.
    + intros exe.
      assert (is_Some (match procs !! p_exe proc with
                | Some entry => <[p_exe proc := update_fields str_list proc (a_ip raddr)
                                                  (now env) entry]> procs
                | None => <[p_exe proc := Entry (p_name proc)
                                            [str_cmdline str_list (p_cmdline proc)]
                                            (now env) (now env) 1 [a_ip raddr]]> procs
                end !! exe) ↔ exe = p_exe proc ∨ is_Some (procs !! exe)) as Hdom.
      { destruct (procs !! p_exe proc) as [entry|] eqn:E;
          rewrite lookup_insert_is_Some; (split; [intros [<-|[_ H]]; auto|]);
          (intros [->|H]; [by left|]);
          (destruct (decide (p_exe proc = exe)) as [<-|]; [by left | by right]). }
      destruct (procs !! p_exe proc) as [entry|] eqn:E; simpl;
        rewrite Hdom, IH; (split;
        [ intros [->|[H|(c & Hin & Hr)]];
          [ right; exists x; split; [apply elem_of_app; right; by left|];
            apply resolved_exe_classify; by exists raddr, proc
          | by left
          | right; exists c; split; [apply elem_of_app; by left | done] ]
        | intros [H|(c & Hin & Hr)]; [by right; left|];
          apply elem_of_app in Hin as [Hin|Hin];
          [ right; right; by exists c
          | apply list_elem_of_singleton in Hin as ->;
            apply resolved_exe_classify in Hr as (ra & pr & Hr & <-);
            left; congruence ] ]).
Qed.

(** [days seen] is at least 1 where it was, and goes down nowhere. *)
Lemma poll_loop_days env l f :
  ∃ f', for_each l (poll_conn str_list is_private str_conn env) f = (inr tt, f') ∧
    ((∀ exe entry, s_processes (h_snitch (fr_heap f)) !! exe = Some entry →
                   (1 ≤ e_days_seen entry)%Z) →
     ∀ exe entry, s_processes (h_snitch (fr_heap f')) !! exe = Some entry →
                  (1 ≤ e_days_seen entry)%Z) ∧
    (∀ exe entry, s_processes (h_snitch (fr_heap f)) !! exe = Some entry →
       ∃ entry', s_processes (h_snitch (fr_heap f')) !! exe = Some entry' ∧
                 (e_days_seen entry ≤ e_days_seen entry')%Z).
Proof.
  apply (for_each_inv (λ _ f',
    ((∀ exe entry, s_processes (h_snitch (fr_heap f)) !! exe = Some entry →
                   (1 ≤ e_days_seen entry)%Z) →
     ∀ exe entry, s_processes (h_snitch (fr_heap f')) !! exe = Some entry →
                  (1 ≤ e_days_seen entry)%Z) ∧
    (∀ exe entry, s_processes (h_snitch (fr_heap f)) !! exe = Some entry →
       ∃ entry', s_processes (h_snitch (fr_heap f')) !! exe = Some entry' ∧
                 (e_days_seen entry ≤ e_days_seen entry')%Z))).
  - split; [done|]. intros exe entry H. by exists entry.
  - intros done x rest s _ [IH1 IH2]. turn is_private env x s Hc; [done|done|].
    split.
    + intros H0 exe entry. specialize (IH1 H0).
      destruct (procs !! p_exe proc) as [old|] eqn:E; simpl;
        (destruct (decide (p_exe proc = exe)) as [<-|Hne];
         [rewrite lookup_insert_eq; intros [= <-] | rewrite lookup_insert_ne by done; apply IH1]).
      * rewrite update_fields_run. simpl. specialize (IH1 _ _ E).
        destruct (decide (date_of (now env) = date_of (e_last_seen old))); lia.
      * simpl. lia.
    + intros exe entry H. destruct (IH2 _ _ H) as (mid & Hmid & Hle).
      destruct (procs !! p_exe proc) as [old|] eqn:E; simpl;
        (destruct (decide (p_exe proc = exe)) as [<-|Hne];
         [rewrite lookup_insert_eq | rewrite lookup_insert_ne by done; by exists mid]).
      * eexists. split; [done|]. rewrite update_fields_run. simpl.
        assert (mid = old) as -> by congruence.
        destruct (decide (date_of (now env) = date_of (e_last_seen old))); lia.
      * congruence.
Qed.

End loop_facts.

(** ** The candidate map *)

Lemma dict_pop_keys (k port : Z) (d : Dict.t) :
  port ∈ Dict.keys (Dict.pop k d) ↔ port ∈ Dict.keys d ∧ port ≠ k.
Proof.
  unfold Dict.keys, Dict.pop. rewrite !list_elem_of_fmap. split.
  - intros ([k' v] & -> & H). apply list_elem_of_filter in H as [Hne Hin].
    split; [|done]. by exists (k', v).
  - intros [([k' v] & -> & Hin) Hne]. exists (k', v). split; [done|].
    by apply list_elem_of_filter.
Qed.

Lemma dict_pop_nodup (k : Z) (d : Dict.t) :
  NoDup (Dict.keys d) → NoDup (Dict.keys (Dict.pop k d)).
Proof.
  unfold Dict.keys, Dict.pop. induction d as [|[k' v] d IH]; [done|].
  rewrite fmap_cons, NoDup_cons. intros [Hk Hd].
  rewrite (filter_cons (λ kv : Z * packet, kv.1 ≠ k)).
  destruct (decide ((k', v).1 ≠ k)); [|by apply IH].
  rewrite fmap_cons. apply NoDup_cons. split; [|by apply IH].
  intros Hin. apply Hk. by apply (dict_pop_keys k k' d) in Hin as [Hin _].
Qed.

Lemma dict_set_keys (k port : Z) (v : packet) (d : Dict.t) :
  port ∈ Dict.keys (Dict.set k v d) ↔ port = k ∨ port ∈ Dict.keys d.
Proof.
  unfold Dict.keys. induction d as [|[k' v'] d IH]; simpl.
  - rewrite list_elem_of_singleton. split; [by left | intros [H|H]; [done|]].
    by apply elem_of_nil in H.
  - destruct (decide (k' = k)) as [->|Hne]; simpl; rewrite !elem_of_cons.
    + tauto.
    + rewrite IH. tauto.
Qed.

Section candidate_facts.

Context (str_list : list string → string).
Context (is_private : string → option bool).
Context (str_conn : sconn → string).

Lemma classify_public env conn :
  public is_private conn ↔
  classify is_private env conn = Failed true ∨
  ∃ raddr proc, classify is_private env conn = Resolved raddr proc.
Proof.
  unfold public, classify. split.
  - intros (raddr & -> & ->).
    destruct (process_as_dict env conn) as [proc|]; [right; by exists raddr, proc | by left].
  - destruct (c_raddr conn) as [raddr|]; [|by intros [?|(? & ? & ?)]].
    destruct (is_private (a_ip raddr)) as [[|]|] eqn:E;
      try (by intros [?|(? & ? & ?)]).
    intros _. by exists raddr.
Qed.

Lemma classify_failed_before env conn :
  classify is_private env conn = Failed false → ¬ public is_private conn.
Proof.
  intros H Hp. apply (classify_public env) in Hp as [Hp|(? & ? & Hp)]; congruence.
Qed.

Lemma classify_skipped env conn :
  classify is_private env conn = Skipped → ¬ public is_private conn.
Proof.
  intros H Hp. apply (classify_public env) in Hp as [Hp|(? & ? & Hp)]; congruence.
Qed.

(** The candidates left by the loop: those whose port is the local port
    of no public connection of the loop. *)
Lemma poll_loop_pcap env l f :
  ∃ f', for_each l (poll_conn str_list is_private str_conn env) f = (inr tt, f') ∧
    (∀ port, port ∈ Dict.keys (h_pcap (fr_heap f')) ↔
             port ∈ Dict.keys (h_pcap (fr_heap f)) ∧
             ∀ conn, conn ∈ l → public is_private conn → a_port (c_laddr conn) ≠ port) ∧
    (NoDup (Dict.keys (h_pcap (fr_heap f))) → NoDup (Dict.keys (h_pcap (fr_heap f')))).
Proof.
  apply (for_each_inv (λ done f',
    (∀ port, port ∈ Dict.keys (h_pcap (fr_heap f')) ↔
             port ∈ Dict.keys (h_pcap (fr_heap f)) ∧
             ∀ conn, conn ∈ done → public is_private conn → a_port (c_laddr conn) ≠ port) ∧
    (NoDup (Dict.keys (h_pcap (fr_heap f))) → NoDup (Dict.keys (h_pcap (fr_heap f')))))).
  - split; [|done]. intros port. split; [|by intros [? _]].
    intros H. split; [done|]. intros conn Hin. by apply elem_of_nil in Hin.
  - intros done x rest s _ [IH1 IH2].
    assert (∀ port,
      (∀ conn, conn ∈ done ++ [x] → public is_private conn → a_port (c_laddr conn) ≠ port) ↔
      (∀ conn, conn ∈ done → public is_private conn → a_port (c_laddr conn) ≠ port) ∧
      (public is_private x → a_port (c_laddr x) ≠ port)) as Hsnoc.
    { intros port. split.
      - intros H. split; [intros c Hc; apply H, elem_of_app; by left|].
        apply H, elem_of_app. right. by left.
      - intros [H1 H2] c Hc. apply elem_of_app in Hc as [Hc|Hc]; [by apply H1|].
        by apply list_elem_of_singleton in Hc as ->. }
    assert (∀ port pcap,
      (∀ port, port ∈ Dict.keys pcap ↔
         port ∈ Dict.keys (h_pcap (fr_heap f)) ∧
         ∀ conn, conn ∈ done → public is_private conn → a_port (c_laddr conn) ≠ port) →
      public is_private x →
      (port ∈ Dict.keys (Dict.pop (a_port (c_laddr x)) pcap) ↔
       port ∈ Dict.keys (h_pcap (fr_heap f)) ∧
       ∀ conn, conn ∈ done ++ [x] → public is_private conn → a_port (c_laddr conn) ≠ port))
      as Hpop.
    { intros port pcap IH Hp. rewrite dict_pop_keys, IH, Hsnoc.
      split; [intros [[? ?] ?]|intros [? [? Hx]]]; repeat split; auto.
      intros ->. by apply Hx. }
    assert (∀ port pcap,
      (∀ port, port ∈ Dict.keys pcap ↔
         port ∈ Dict.keys (h_pcap (fr_heap f)) ∧
         ∀ conn, conn ∈ done → public is_private conn → a_port (c_laddr conn) ≠ port) →
      ¬ public is_private x →
      (port ∈ Dict.keys pcap ↔
       port ∈ Dict.keys (h_pcap (fr_heap f)) ∧
       ∀ conn, conn ∈ done ++ [x] → public is_private conn → a_port (c_laddr conn) ≠ port))
      as Hkeep.
    { intros port pcap IH Hp. rewrite IH, Hsnoc. tauto. }
    turn is_private env x s Hc.
    + split; [|done]. intros port. apply Hkeep; [done|].
      by apply (classify_skipped env).
    + destruct b.
      * split; [|intros H; by apply dict_pop_nodup, IH2].
        intros port. apply Hpop; [done|]. apply (classify_public env). by left.
      * split; [|done]. intros port. apply Hkeep; [done|].
        by apply (classify_failed_before env).
    + assert (public is_private x) as Hp.
      { apply (classify_public env). right. by exists raddr, proc. }
      destruct (procs !! p_exe proc); simpl;
        (split; [intros port; by apply Hpop | intros H; by apply dict_pop_nodup, IH2]).
Qed.

End candidate_facts.

(** ** Diagnostics and attribution *)

Section record_facts.

Context (str_list : list string → string).
Context (is_private : string → option bool).
Context (str_conn : sconn → string).

(** The loop appends to [Errors] and only diagnostics of its
    connections, one for each connection whose [try] raised. *)
Lemma poll_loop_errors env l f :
  ∃ f', for_each l (poll_conn str_list is_private str_conn env) f = (inr tt, f') ∧
    ∃ polling,
      s_errors (h_snitch (fr_heap f')) = s_errors (h_snitch (fr_heap f)) ++ polling ∧
      (∀ error, error ∈ polling →
         ∃ conn, conn ∈ l ∧ polling_diagnostic str_conn env conn error) ∧
      (∀ conn b, conn ∈ l → classify is_private env conn = Failed b →
         ∃ error, error ∈ polling ∧ polling_diagnostic str_conn env conn error).
Proof.
  apply (for_each_inv (λ done f', ∃ polling,
      s_errors (h_snitch (fr_heap f')) = s_errors (h_snitch (fr_heap f)) ++ polling ∧
      (∀ error, error ∈ polling →
         ∃ conn, conn ∈ done ∧ polling_diagnostic str_conn env conn error) ∧
      (∀ conn b, conn ∈ done → classify is_private env conn = Failed b →
         ∃ error, error ∈ polling ∧ polling_diagnostic str_conn env conn error))).
  - exists []. rewrite app_nil_r. split; [done|]. split.
    + intros e He. by apply elem_of_nil in He.
    + intros c b Hc. by apply elem_of_nil in Hc.
  - intros done x rest s _ (polling & Herr & Hall & Hfail).
    assert (∀ error, error ∈ polling →
         ∃ conn, conn ∈ done ++ [x] ∧ polling_diagnostic str_conn env conn error) as Hmono.
    { intros e He. destruct (Hall e He) as (c & Hc & Hd). exists c.
      split; [|done]. apply elem_of_app. by left. }
    turn is_private env x s Hc.
    + exists polling. split; [done|]. split; [done|].
      intros c b Hin Hf. apply elem_of_app in Hin as [Hin|Hin]; [by apply (Hfail c b)|].
      apply list_elem_of_singleton in Hin as ->. congruence.
    + exists (polling ++ [now env +:+ (" " +:+ polling_error str_conn x proc0)]).
      assert (polling_diagnostic str_conn env x
                (now env +:+ (" " +:+ polling_error str_conn x proc0))) as Hx.
      { unfold polling_diagnostic, polling_error. by eexists. }
      split; [by rewrite Herr, app_assoc|]. split.
      * intros e He. apply elem_of_app in He as [He|He]; [by apply Hmono|].
        apply list_elem_of_singleton in He as ->. exists x. split; [|done].
        apply elem_of_app. right. by left.
      * intros c b' Hin Hf. apply elem_of_app in Hin as [Hin|Hin].
        -- destruct (Hfail c b' Hin Hf) as (e & He & Hd). exists e.
           split; [|done]. apply elem_of_app. by left.
        -- apply list_elem_of_singleton in Hin as ->. eexists. split; [|exact Hx].
           apply elem_of_app. right. by left.
    + exists polling.
      split; [by destruct (procs !! p_exe proc)|]. split; [done|].
      intros c b Hin Hf. apply elem_of_app in Hin as [Hin|Hin]; [by apply (Hfail c b)|].
      apply list_elem_of_singleton in Hin as ->. congruence.
Qed.

(** What an update keeps and what it adds. *)
Lemma update_fields_keeps proc raddr_ip ctime entry :
  (∀ a, a ∈ e_remote_addresses entry →
        a ∈ e_remote_addresses (update_fields str_list proc raddr_ip ctime entry)) ∧
  (∀ c, c ∈ e_cmdlines entry →
        c ∈ e_cmdlines (update_fields str_list proc raddr_ip ctime entry)) ∧
  (∀ n, Py.str_contains (e_name entry) n = true →
        Py.str_contains (e_name (update_fields str_list proc raddr_ip ctime entry)) n = true).
Proof.
  rewrite update_fields_run. simpl. repeat split.
  - intros a Ha. case_decide; [done|]. apply elem_of_app. by left.
  - intros c Hc. case_decide; [done|]. apply elem_of_app. by left.
  - intros n Hn. destruct (Py.str_contains (e_name entry) (p_name proc)); [done|].
    by apply str_contains_app_l.
Qed.

Lemma update_fields_adds proc raddr_ip ctime entry :
  raddr_ip ∈ e_remote_addresses (update_fields str_list proc raddr_ip ctime entry) ∧
  str_cmdline str_list (p_cmdline proc) ∈
    e_cmdlines (update_fields str_list proc raddr_ip ctime entry) ∧
  Py.str_contains (e_name (update_fields str_list proc raddr_ip ctime entry))
    (p_name proc) = true.
Proof.
  rewrite update_fields_run. simpl. repeat split.
  - case_decide; [done|]. apply elem_of_app. right. by left.
  - case_decide; [done|]. apply elem_of_app. right. by left.
  - destruct (Py.str_contains (e_name entry) (p_name proc)) eqn:E; [done|].
    apply str_contains_app_r, str_contains_app_r, str_contains_refl.
Qed.

(** Every connection of the loop that resolves is on record when the
    loop ends. *)
Lemma poll_loop_attributed env l f :
  ∃ f', for_each l (poll_conn str_list is_private str_conn env) f = (inr tt, f') ∧
    ∀ conn, conn ∈ l → attributed str_list is_private env conn (h_snitch (fr_heap f')).
Proof.
  apply (for_each_inv (λ done f',
    ∀ conn, conn ∈ done → attributed str_list is_private env conn (h_snitch (fr_heap f')))).
  - intros c Hc. by apply elem_of_nil in Hc.
  - intros done x rest s _ IH.
    assert (∀ s', (∀ raddr proc, classify is_private env x ≠ Resolved raddr proc) →
                  attributed str_list is_private env x s') as Hvac.
    { intros s' Hn raddr proc H1 H2 H3. exfalso. apply (Hn raddr proc).
      by apply classify_resolved. }
    turn is_private env x s Hc.
    + intros c Hin. apply elem_of_app in Hin as [Hin|Hin]; [by apply IH|].
      apply list_elem_of_singleton in Hin as ->. apply Hvac. congruence.
    + intros c Hin. apply elem_of_app in Hin as [Hin|Hin]; [by apply IH|].
      apply list_elem_of_singleton in Hin as ->. apply Hvac. congruence.
    + intros c Hin. apply elem_of_app in Hin as [Hin|Hin].
      * intros ra pr H1 H2 H3.
        destruct (IH c Hin ra pr H1 H2 H3) as (e & He & Ha & Hcm & Hn & Hl).
        simpl in He.
        destruct (decide (p_exe proc = p_exe pr)) as [Heq|Hne].
        -- rewrite Heq, He. simpl. rewrite lookup_insert_eq.
           eexists. split; [done|].
           destruct (update_fields_keeps proc (a_ip raddr) (now env) e) as (K1 & K2 & K3).
           repeat split; auto.
        -- exists e. split; [|done].
           destruct (procs !! p_exe proc); simpl; by rewrite lookup_insert_ne.
      * apply list_elem_of_singleton in Hin as ->.
        intros ra pr H1 H2 H3.
        assert (classify is_private env x = Resolved ra pr) as Hc'
          by (by apply classify_resolved).
        rewrite Hc in Hc'. injection Hc' as <- <-.
        destruct (procs !! p_exe proc) as [old|] eqn:E; simpl; rewrite lookup_insert_eq;
          (eexists; split; [done|]).
        -- destruct (update_fields_adds proc (a_ip raddr) (now env) old) as (A1 & A2 & A3).
           repeat split; auto.
        -- simpl. repeat split; [by left | by left | apply str_contains_refl].
Qed.

End record_facts.

(** * The claims *)

(** ** The attribution engine *)

Section attribution_claims.

Context (str_list : list string → string).

Lemma update_fields_idempotent proc raddr_ip ctime entry :
  update_fields str_list proc raddr_ip ctime
    (update_fields str_list proc raddr_ip ctime entry) =
  update_fields str_list proc raddr_ip ctime entry.
Proof.
  destruct (update_fields_adds str_list proc raddr_ip ctime entry) as (A1 & A2 & A3).
  rewrite (update_fields_run _ _ _ _ (update_fields _ _ _ _ entry)).
  rewrite A3, decide_True by done. rewrite decide_True by done.
  rewrite decide_True by done.
  by rewrite (update_fields_run _ _ _ _ entry).
Qed.

(** C3. Updating an existing entry twice with the same process, remote
    address and time: the second update does not raise and leaves the
    whole state as the first left it, the entry's [last seen] being the
    time given. So it adds no command line, no address and no
    alternative name, and counts no day. *)
Theorem update_entry_idempotent proc raddr_ip ctime h entry :
  s_processes (h_snitch h) !! p_exe proc = Some entry →
  ∃ h1 entry1,
    update_entry str_list proc raddr_ip ctime h = (inr tt, h1) ∧
    s_processes (h_snitch h1) !! p_exe proc = Some entry1 ∧
    e_last_seen entry1 = ctime ∧
    update_entry str_list proc raddr_ip ctime h1 = (inr tt, h1).
Proof.
  intros H. destruct h as [[cfg errs exes names procs] pcap out fsys]. simpl in H.
  eexists _, (update_fields str_list proc raddr_ip ctime entry).
  split; [by apply update_entry_run|]. simpl.
  split; [by rewrite lookup_insert_eq|]. split; [done|].
  erewrite update_entry_run by (simpl; apply lookup_insert_eq).
  unfold set_snitch, set_processes. simpl.
  by rewrite update_fields_idempotent, insert_insert_eq.
Qed.

End attribution_claims.

Lemma update_entry_idempotent_witness :
  ∃ h1 entry1,
    update_entry Demo.str_list Demo.curl "8.8.8.8" Demo.t2
      (new_entry Demo.str_list Demo.curl "93.184.216.34" Demo.t1 Demo.heap0).2
      = (inr tt, h1) ∧
    s_processes (h_snitch h1) !! "/usr/bin/curl" = Some entry1 ∧
    e_last_seen entry1 = Demo.t2 ∧
    update_entry Demo.str_list Demo.curl "8.8.8.8" Demo.t2 h1 = (inr tt, h1).
Proof.
  apply (update_entry_idempotent Demo.str_list Demo.curl "8.8.8.8" Demo.t2 _
           (Entry "curl" ["['curl', 'example.com']"] Demo.t1 Demo.t1 1 ["93.184.216.34"])).
  reflexivity.
Defined.

Section naming_claims.

Context (str_list : list string → string).

(** The calls of the engine only add to [Names]. *)
Lemma run_calls_names (calls : list call) (h : heap) :
  ∃ more, s_names (h_snitch (for_each calls (run_call str_list) h).2) =
          s_names (h_snitch h) ++ more.
Proof.
  revert h. induction calls as [|c calls IH]; intros h.
  - exists []. by rewrite app_nil_r.
  - rewrite for_each_cons. destruct c as [proc ip t|proc ip t]; simpl.
    + rewrite new_entry_run. destruct (IH (new_entry str_list proc ip t h).2) as [more Hm].
      rewrite new_entry_run in Hm. simpl in Hm. rewrite Hm, <- app_assoc. by eexists.
    + destruct (s_processes (h_snitch h) !! p_exe proc) as [entry|] eqn:E.
      * rewrite (update_entry_run _ _ _ _ _ entry E).
        destruct (IH (set_snitch (set_processes
          (<[p_exe proc := update_fields str_list proc ip t entry]>)) h)) as [more Hm].
        by exists more.
      * rewrite (update_entry_missing _ _ _ _ _ E). exists []. by rewrite app_nil_r.
Qed.

(** C5. Two executables are created under the same name [X], which
    [Names] did not hold before, with any calls of the engine between the
    two creations: the slot of [Names] appended by the first creation
    holds [X], the slot appended by the second holds [X] followed by
    " (different executable location)". *)
Theorem name_collision_suffix (X : string) proc1 ip1 time1 proc2 ip2 time2
    (between : list call) (h : heap) :
  p_name proc1 = X →
  p_name proc2 = X →
  p_exe proc1 ≠ p_exe proc2 →
  X ∉ s_names (h_snitch h) →
  let h1 := (new_entry str_list proc1 ip1 time1 h).2 in
  let h2 := (for_each between (run_call str_list) h1).2 in
  let h3 := (new_entry str_list proc2 ip2 time2 h2).2 in
  s_names (h_snitch h3) !! length (s_names (h_snitch h)) = Some X ∧
  s_names (h_snitch h3) !! length (s_names (h_snitch h2)) =
    Some (X +:+ " (different executable location)").
Proof.
  intros H1 H2 _ Hfresh h1 h2 h3.
  destruct (run_calls_names between h1) as [more Hmore]. fold h2 in Hmore.
  assert (s_names (h_snitch h1) = s_names (h_snitch h) ++ [X]) as Hn1.
  { unfold h1. rewrite new_entry_run. simpl. by rewrite H1, decide_False. }
  assert (s_names (h_snitch h3) =
          s_names (h_snitch h2) ++ [X +:+ " (different executable location)"]) as Hn3.
  { unfold h3. rewrite new_entry_run. simpl. rewrite H2, decide_True; [done|].
    rewrite Hmore, Hn1. apply elem_of_app. left. apply elem_of_app. right. by left. }
  split.
  - rewrite Hn3, Hmore, Hn1, <- !app_assoc. simpl.
    by apply list_lookup_middle.
  - rewrite Hn3. by apply list_lookup_middle.
Qed.

End naming_claims.

Lemma name_collision_suffix_witness :
  let h1 := (new_entry Demo.str_list Demo.curl "93.184.216.34" Demo.t1 Demo.heap0).2 in
  let h2 := (for_each [Update Demo.curl "8.8.8.8" Demo.t2] (run_call Demo.str_list) h1).2 in
  let h3 := (new_entry Demo.str_list Demo.curl_local "8.8.8.8" Demo.t2 h2).2 in
  s_names (h_snitch h3) !! length (s_names (h_snitch Demo.heap0)) = Some "curl" ∧
  s_names (h_snitch h3) !! length (s_names (h_snitch h2)) =
    Some ("curl" +:+ " (different executable location)").
Proof.
  apply (name_collision_suffix Demo.str_list "curl" Demo.curl "93.184.216.34" Demo.t1
           Demo.curl_local "8.8.8.8" Demo.t2 [Update Demo.curl "8.8.8.8" Demo.t2]
           Demo.heap0); [reflexivity | reflexivity | discriminate |].
  simpl. apply not_elem_of_nil.
Defined.

Section creation_claims.

Context (str_list : list string → string).

(** C10. When the name of a created executable is already in [Names],
    the slot appended to [Names] carries the suffix and the [name] of
    the new entry is the name as the process reports it, without the
    suffix. *)
Theorem created_entry_keeps_name proc raddr_ip ctime h :
  p_name proc ∈ s_names (h_snitch h) →
  ∃ h' entry,
    new_entry str_list proc raddr_ip ctime h = (inr tt, h') ∧
    last (s_names (h_snitch h')) =
      Some (p_name proc +:+ " (different executable location)") ∧
    s_processes (h_snitch h') !! p_exe proc = Some entry ∧
    e_name entry = p_name proc ∧
    e_name entry ≠ p_name proc +:+ " (different executable location)".
Proof.
  intros Hin. rewrite new_entry_run. eexists _, _. split; [done|]. simpl.
  rewrite decide_True by done. split; [by rewrite last_snoc|].
  split; [by rewrite lookup_insert_eq|]. split; [done|]. simpl.
  intros Heq. apply (f_equal String.length) in Heq.
  rewrite string_length_app in Heq. simpl in Heq. lia.
Qed.

End creation_claims.

Lemma created_entry_keeps_name_witness :
  ∃ h' entry,
    new_entry Demo.str_list Demo.curl_local "8.8.8.8" Demo.t2
      (new_entry Demo.str_list Demo.curl "93.184.216.34" Demo.t1 Demo.heap0).2
      = (inr tt, h') ∧
    last (s_names (h_snitch h')) = Some ("curl" +:+ " (different executable location)") ∧
    s_processes (h_snitch h') !! "/usr/local/bin/curl" = Some entry ∧
    e_name entry = "curl" ∧
    e_name entry ≠ "curl" +:+ " (different executable location)".
Proof.
  apply (created_entry_keeps_name Demo.str_list Demo.curl_local "8.8.8.8" Demo.t2). simpl. by left.
Defined.

(** ** The poller *)

Section poll_claims.

Context (str_list : list string → string).
Context (is_private : string → option bool).
Context (str_conn : sconn → string).
Context (set_iter : gset sconn → list sconn).

(** A [for] loop over a set meets each element once, in some order. *)
Hypothesis set_iter_perm : ∀ X, set_iter X ≡ₚ elements X.

Lemma elem_of_set_iter (conn : sconn) (X : gset sconn) : conn ∈ set_iter X ↔ conn ∈ X.
Proof. by rewrite set_iter_perm, elem_of_elements. Qed.

(** [poll] in terms of the frame its first loop ends in. *)
Lemma poll_decompose env last h :
  ∃ f, for_each (set_iter (list_to_set (net_connections env) ∖ last))
         (poll_conn str_list is_private str_conn env)
         (Frame h (Proc "" "" (CmdStr "") None)) = (inr tt, f) ∧
       poll str_list is_private str_conn set_iter env last h =
       (inr (list_to_set (net_connections env)),
        Heap (set_errors
                (λ l, l ++ (missed_diagnostic env <$> Dict.keys (h_pcap (fr_heap f))))
                (h_snitch (fr_heap f)))
             (h_pcap (fr_heap f))
             (h_out (fr_heap f) ++
                ((λ port, (Stderr, "picosnitch missed connection: " +:+ pretty port))
                   <$> Dict.keys (h_pcap (fr_heap f))))
             (h_fs (fr_heap f))).
Proof.
  destruct (poll_loop_processes str_list is_private str_conn env
              (set_iter (list_to_set (net_connections env) ∖ last))
              (Frame h (Proc "" "" (CmdStr "") None))) as (f & Hf & _).
  exists f. split; [done|]. by apply poll_run.
Qed.

Lemma poll_with_eq env pcap_dict last h :
  poll_with str_list is_private str_conn set_iter env pcap_dict last h =
  poll str_list is_private str_conn set_iter env last (set_pcap (λ _, pcap_dict) h).
Proof. done. Qed.

(** The keys of [Processes] over a run of ticks. *)
Lemma poll_ticks_processes ticks last h :
  ∃ connections h',
    poll_ticks str_list is_private str_conn set_iter ticks last h = (inr connections, h') ∧
    ∀ exe, is_Some (s_processes (h_snitch h') !! exe) ↔
           is_Some (s_processes (h_snitch h) !! exe) ∨ observed is_private ticks last exe.
Proof.
  revert last h. induction ticks as [|[env pcap_dict] ticks IH]; intros last h.
  - exists last, h. split; [done|]. intros exe. simpl. tauto.
  - simpl. unfold mbind, M_bind. rewrite poll_with_eq.
    destruct (poll_decompose env last (set_pcap (λ _, pcap_dict) h)) as (f & Hf & ->).
    destruct (poll_loop_processes str_list is_private str_conn env
                (set_iter (list_to_set (net_connections env) ∖ last))
                (Frame (set_pcap (λ _, pcap_dict) h) (Proc "" "" (CmdStr "") None)))
      as (f' & Hf' & Hdom).
    rewrite Hf in Hf'. injection Hf' as <-.
    match goal with |- context [poll_ticks _ _ _ _ ticks ?c ?h1] =>
      destruct (IH c h1) as (connections & h' & -> & Hrest) end.
    exists connections, h'. split; [done|].
    intros exe. rewrite Hrest. simpl. rewrite Hdom. simpl.
    setoid_rewrite elem_of_set_iter. tauto.
Qed.

(** C9. From the fresh default state, after any run of ticks of [poll]
    (which raises in none), an executable is a key of [Processes] exactly
    when one of the ticks met a new connection with a public remote
    address whose owner resolved to that executable; and a connection
    without a remote address, or with a private one, leaves the whole
    state as it is. *)
Theorem entry_iff_public_connection :
  (∀ ticks pcap_dict out fsys,
     ∃ connections h,
       poll_ticks str_list is_private str_conn set_iter ticks ∅
         (Heap default_snitch pcap_dict out fsys) = (inr connections, h) ∧
       ∀ exe, exe ∈ dom (s_processes (h_snitch h)) ↔ observed is_private ticks ∅ exe) ∧
  (∀ env conn f,
     c_raddr conn = None ∨
     (∃ raddr, c_raddr conn = Some raddr ∧ is_private (a_ip raddr) = Some true) →
     poll_conn str_list is_private str_conn env conn f = (inr tt, f)).
Proof.
  split.
  - intros ticks pcap_dict out fsys.
    destruct (poll_ticks_processes ticks ∅ (Heap default_snitch pcap_dict out fsys))
      as (connections & h & Hrun & Hdom).
    exists connections, h. split; [done|]. intros exe.
    rewrite elem_of_dom, Hdom. simpl. rewrite lookup_empty.
    split; [intros [H|H]; [by destruct H as [? ?] | done] | by right].
  - intros env conn f H. apply poll_conn_skipped. unfold classify.
    destruct H as [->|(raddr & -> & ->)]; done.
Qed.

End poll_claims.

Lemma entry_iff_public_connection_witness :
  (∃ connections h,
     poll_ticks Demo.str_list Demo.is_private Demo.str_conn Demo.set_iter
       [(Demo.env1, []); (Demo.env2, [])] ∅ Demo.heap0 = (inr connections, h) ∧
     ∀ exe, exe ∈ dom (s_processes (h_snitch h)) ↔
            observed Demo.is_private [(Demo.env1, []); (Demo.env2, [])] ∅ exe) ∧
  poll_conn Demo.str_list Demo.is_private Demo.str_conn Demo.env1 Demo.conn_local
    (Frame Demo.heap0 Demo.curl) = (inr tt, Frame Demo.heap0 Demo.curl).
Proof.
  destruct (entry_iff_public_connection Demo.str_list Demo.is_private Demo.str_conn
              Demo.set_iter (λ X, reflexivity (elements X))) as [H1 H2].
  split; [apply H1|]. apply H2. right. eexists. split; reflexivity.
Defined.

Section days_claims.

Context (str_list : list string → string).
Context (is_private : string → option bool).
Context (str_conn : sconn → string).
Context (set_iter : gset sconn → list sconn).

(** [poll] keeps [days seen] at 1 or more and lowers it nowhere. *)
Lemma poll_days env last h :
  ∃ h', poll str_list is_private str_conn set_iter env last h =
          (inr (list_to_set (net_connections env)), h') ∧
    ((∀ exe entry, s_processes (h_snitch h) !! exe = Some entry →
                   (1 ≤ e_days_seen entry)%Z) →
     ∀ exe entry, s_processes (h_snitch h') !! exe = Some entry →
                  (1 ≤ e_days_seen entry)%Z) ∧
    (∀ exe entry, s_processes (h_snitch h) !! exe = Some entry →
       ∃ entry', s_processes (h_snitch h') !! exe = Some entry' ∧
                 (e_days_seen entry ≤ e_days_seen entry')%Z).
Proof.
  destruct (poll_loop_days str_list is_private str_conn env
              (set_iter (list_to_set (net_connections env) ∖ last))
              (Frame h (Proc "" "" (CmdStr "") None))) as (f & Hf & Hmin & Hmono).
  eexists. split; [by apply poll_run|]. simpl. by split.
Qed.

Lemma poll_ticks_days ticks last h :
  (∀ exe entry, s_processes (h_snitch h) !! exe = Some entry →
                (1 ≤ e_days_seen entry)%Z) →
  ∀ exe entry,
    s_processes (h_snitch
      (poll_ticks str_list is_private str_conn set_iter ticks last h).2) !! exe
      = Some entry →
    (1 ≤ e_days_seen entry)%Z.
Proof.
  revert last h. induction ticks as [|[env pcap_dict] ticks IH]; intros last h H0; [done|].
  simpl. unfold mbind, M_bind.
  change (poll_with str_list is_private str_conn set_iter env pcap_dict last h)
    with (poll str_list is_private str_conn set_iter env last (set_pcap (λ _, pcap_dict) h)).
  destruct (poll_days env last (set_pcap (λ _, pcap_dict) h)) as (h' & -> & Hmin & _).
  apply IH. by apply Hmin.
Qed.

End days_claims.

Section scenario_claims.

Context (str_list : list string → string).
Context (is_private : string → option bool).
Context (str_conn : sconn → string).
Context (set_iter : gset sconn → list sconn).
Hypothesis set_iter_perm : ∀ X, set_iter X ≡ₚ elements X.

Lemma set_iter_singleton (conn : sconn) : set_iter {[conn]} = [conn].
Proof.
  apply Permutation_singleton_r. by rewrite set_iter_perm, elements_singleton.
Qed.

(** A tick whose only new connection resolves. *)
Lemma poll_one_resolved env last h conn raddr proc :
  list_to_set (net_connections env) ∖ last = ({[conn]} : gset sconn) →
  c_raddr conn = Some raddr →
  is_private (a_ip raddr) = Some false →
  process_as_dict env conn = Some proc →
  ∃ h', poll str_list is_private str_conn set_iter env last h =
          (inr (list_to_set (net_connections env)), h') ∧
        s_processes (h_snitch h') =
          match s_processes (h_snitch h) !! p_exe proc with
          | None => <[p_exe proc := Entry (p_name proc) [str_cmdline str_list (p_cmdline proc)]
                                      (now env) (now env) 1 [a_ip raddr]]>
                      (s_processes (h_snitch h))
          | Some entry =>
              <[p_exe proc := update_fields str_list proc (a_ip raddr) (now env) entry]>
                (s_processes (h_snitch h))
          end.
Proof.
  intros Hnew Hr Hp Hd.
  assert (classify is_private env conn = Resolved raddr proc) as Hc
    by (by apply classify_resolved).
  destruct h as [[cfg errs exes names procs] pcap out fsys].
  eexists. split.
  - apply poll_run. rewrite Hnew, set_iter_singleton, for_each_cons.
    erewrite poll_conn_resolved by exact Hc. reflexivity.
  - simpl. by destruct (procs !! p_exe proc).
Qed.

(** C1. From the fresh default state, a tick at
    'Mon Jan  1 00:00:00 2024' whose only connection goes from
    /usr/bin/curl (name curl, command line [c]) to 93.184.216.34 creates
    the entry of /usr/bin/curl with that time as [first seen] and
    [last seen], [days seen] 1, the command line and the address. A tick
    at 'Tue Jan  2 00:00:00 2024' whose only new connection goes from
    the same executable to 8.8.8.8 leaves that entry with [days seen] 2,
    both addresses in order, [last seen] at the second time and
    [first seen] as it was. *)
Theorem curl_scenario (c : cmdline) (conn1 conn2 : sconn) (port1 port2 : Z)
    (pid1 : option Z) (proc2 : procinfo) (env1 env2 : tick_env)
    (pcap_dict : Dict.t) (out : list (stream * string)) (fsys : fs) :
  is_private "93.184.216.34" = Some false →
  is_private "8.8.8.8" = Some false →
  c_raddr conn1 = Some (Addr "93.184.216.34" port1) →
  c_raddr conn2 = Some (Addr "8.8.8.8" port2) →
  now env1 = "Mon Jan  1 00:00:00 2024" →
  net_connections env1 = [conn1] →
  process_as_dict env1 conn1 = Some (Proc "curl" "/usr/bin/curl" c pid1) →
  now env2 = "Tue Jan  2 00:00:00 2024" →
  list_to_set (net_connections env2) ∖ {[conn1]} = ({[conn2]} : gset sconn) →
  process_as_dict env2 conn2 = Some proc2 →
  p_exe proc2 = "/usr/bin/curl" →
  ∃ connections1 h1 connections2 h2 entry2,
    poll str_list is_private str_conn set_iter env1 ∅
      (Heap default_snitch pcap_dict out fsys) = (inr connections1, h1) ∧
    s_processes (h_snitch h1) !! "/usr/bin/curl" =
      Some (Entry "curl" [str_cmdline str_list c]
              "Mon Jan  1 00:00:00 2024" "Mon Jan  1 00:00:00 2024" 1 ["93.184.216.34"]) ∧
    poll str_list is_private str_conn set_iter env2 connections1 h1 =
      (inr connections2, h2) ∧
    s_processes (h_snitch h2) !! "/usr/bin/curl" = Some entry2 ∧
    e_days_seen entry2 = 2 ∧
    e_remote_addresses entry2 = ["93.184.216.34"; "8.8.8.8"] ∧
    e_last_seen entry2 = "Tue Jan  2 00:00:00 2024" ∧
    e_first_seen entry2 = "Mon Jan  1 00:00:00 2024".
Proof.
  intros Hp1 Hp2 Hr1 Hr2 Ht1 Hn1 Hd1 Ht2 Hn2 Hd2 He2.
  assert (list_to_set (net_connections env1) = ({[conn1]} : gset sconn)) as Hcur1.
  { rewrite Hn1. simpl. apply union_empty_r_L. }
  destruct (poll_one_resolved env1 ∅ (Heap default_snitch pcap_dict out fsys) conn1
              (Addr "93.184.216.34" port1) (Proc "curl" "/usr/bin/curl" c pid1))
    as (h1 & Hrun1 & Hprocs1); [|done|done|done|].
  { rewrite Hcur1. apply difference_empty_L. }
  simpl in Hprocs1. rewrite lookup_empty, Ht1 in Hprocs1.
  destruct (poll_one_resolved env2 (list_to_set (net_connections env1)) h1 conn2
              (Addr "8.8.8.8" port2) proc2) as (h2 & Hrun2 & Hprocs2); [|done|done|done|].
  { by rewrite Hcur1. }
  rewrite Hprocs1, He2, lookup_insert_eq, Ht2 in Hprocs2. simpl in Hprocs2.
  eexists _, h1, _, h2, _. split; [exact Hrun1|].
  split; [by rewrite Hprocs1, lookup_insert_eq|].
  split; [exact Hrun2|].
  split; [by rewrite Hprocs2, lookup_insert_eq|].
  rewrite update_fields_run. simpl. done.
Qed.

End scenario_claims.

Lemma curl_scenario_witness :
  ∃ connections1 h1 connections2 h2 entry2,
    poll Demo.str_list Demo.is_private Demo.str_conn Demo.set_iter Demo.env1 ∅
      (Heap default_snitch [] [] (Fs false None)) = (inr connections1, h1) ∧
    s_processes (h_snitch h1) !! "/usr/bin/curl" =
      Some (Entry "curl" [str_cmdline Demo.str_list (CmdList ["curl"; "example.com"])]
              "Mon Jan  1 00:00:00 2024" "Mon Jan  1 00:00:00 2024" 1 ["93.184.216.34"]) ∧
    poll Demo.str_list Demo.is_private Demo.str_conn Demo.set_iter Demo.env2
      connections1 h1 = (inr connections2, h2) ∧
    s_processes (h_snitch h2) !! "/usr/bin/curl" = Some entry2 ∧
    e_days_seen entry2 = 2 ∧
    e_remote_addresses entry2 = ["93.184.216.34"; "8.8.8.8"] ∧
    e_last_seen entry2 = "Tue Jan  2 00:00:00 2024" ∧
    e_first_seen entry2 = "Mon Jan  1 00:00:00 2024".
Proof.
  apply (curl_scenario Demo.str_list Demo.is_private Demo.str_conn Demo.set_iter
           (λ X, reflexivity (elements X))
           (CmdList ["curl"; "example.com"]) Demo.conn1 Demo.conn2 443 53 (Some 4242)
           Demo.curl Demo.env1 Demo.env2 [] [] (Fs false None));
    reflexivity.
Defined.

(** C2. The date [update_entry] compares is [ctime.split()[:3]], the day
    name, the month and the day of the month: the year, the fifth word
    of [time.ctime()], is not in it. From the fresh default state, a tick
    at 'Mon Jan  1 00:00:00 2024' makes the entry of /usr/bin/curl with
    [days seen] 1; at a tick at 'Mon Jan  1 23:59:59 2029' with a new
    connection of the same executable the calendar date is another one,
    and the entry has its [last seen] at the second time and [days seen]
    still 1. *)
Theorem days_seen_misses_year :
  calendar_date "Mon Jan  1 23:59:59 2029" ≠ calendar_date "Mon Jan  1 00:00:00 2024" ∧
  date_of "Mon Jan  1 23:59:59 2029" = date_of "Mon Jan  1 00:00:00 2024" ∧
  ∃ connections1 h1 entry1 connections2 h2 entry2,
    poll Demo.str_list Demo.is_private Demo.str_conn Demo.set_iter Demo.env1 ∅
      Demo.heap0 = (inr connections1, h1) ∧
    s_processes (h_snitch h1) !! "/usr/bin/curl" = Some entry1 ∧
    e_last_seen entry1 = "Mon Jan  1 00:00:00 2024" ∧
    e_days_seen entry1 = 1 ∧
    now Sample.env_2029 = "Mon Jan  1 23:59:59 2029" ∧
    poll Demo.str_list Demo.is_private Demo.str_conn Demo.set_iter Sample.env_2029
      connections1 h1 = (inr connections2, h2) ∧
    s_processes (h_snitch h2) !! "/usr/bin/curl" = Some entry2 ∧
    e_last_seen entry2 = "Mon Jan  1 23:59:59 2029" ∧
    e_remote_addresses entry2 = ["93.184.216.34"; "8.8.8.8"] ∧
    e_days_seen entry2 = 1.
Proof.
  split; [vm_compute; discriminate|]. split; [vm_compute; reflexivity|].
  pose proof (λ X : gset sconn, reflexivity (elements X) : Demo.set_iter X ≡ₚ elements X)
    as Hperm.
  assert (list_to_set (net_connections Demo.env1) = ({[Demo.conn1]} : gset sconn)) as Hcur1
    by apply union_empty_r_L.
  destruct (poll_one_resolved Demo.str_list Demo.is_private Demo.str_conn Demo.set_iter
              Hperm Demo.env1 ∅ Demo.heap0 Demo.conn1 (Addr "93.184.216.34" 443) Demo.curl)
    as (h1 & Hrun1 & Hprocs1); [|done|done|done|].
  { rewrite Hcur1. apply difference_empty_L. }
  simpl in Hprocs1. rewrite lookup_empty in Hprocs1.
  destruct (poll_one_resolved Demo.str_list Demo.is_private Demo.str_conn Demo.set_iter
              Hperm Sample.env_2029 (list_to_set (net_connections Demo.env1)) h1 Demo.conn2
              (Addr "8.8.8.8" 53) Demo.curl) as (h2 & Hrun2 & Hprocs2); [|done|done|done|].
  { rewrite Hcur1. reflexivity. }
  rewrite Hprocs1 in Hprocs2. simpl in Hprocs2. rewrite lookup_insert_eq in Hprocs2.
  exists (list_to_set (net_connections Demo.env1)), h1,
    (Entry "curl" ["['curl', 'example.com']"] Demo.t1 Demo.t1 1 ["93.184.216.34"]),
    (list_to_set (net_connections Sample.env_2029)), h2,
    (update_fields Demo.str_list Demo.curl "8.8.8.8" Sample.t_2029
       (Entry "curl" ["['curl', 'example.com']"] Demo.t1 Demo.t1 1 ["93.184.216.34"])).
  split; [exact Hrun1|].
  split; [rewrite Hprocs1; apply lookup_insert_eq|].
  split; [reflexivity|]. split; [reflexivity|]. split; [reflexivity|].
  split; [exact Hrun2|].
  split; [rewrite Hprocs2; apply lookup_insert_eq|].
  rewrite update_fields_run.
  split; [reflexivity|]. split; vm_compute; reflexivity.
Qed.

Lemma missed_diagnostic_inj (env : tick_env) : Inj (=) (=) (missed_diagnostic env).
Proof.
  intros a b H. unfold missed_diagnostic in H.
  apply string_app_inj, string_app_inj in H. by apply (inj pretty).
Qed.

Section tick_claims.

Context (str_list : list string → string).
Context (is_private : string → option bool).
Context (str_conn : sconn → string).
Context (set_iter : gset sconn → list sconn).
Hypothesis set_iter_perm : ∀ X, set_iter X ≡ₚ elements X.

(** C8. A tick in which the owner of one new connection with a public
    remote address cannot be resolved: [poll] returns the current
    snapshot all the same, [Errors] has grown by diagnostics among which
    is one made of the time of the tick, a blank and the description of
    that connection (and what follows it), every new connection of the
    tick that resolves is on record in [Processes] when [poll] returns,
    and every other new connection whose owner cannot be resolved has its
    own diagnostic. *)
Theorem resolution_failure_isolated env last h conn :
  conn ∈ (list_to_set (net_connections env) ∖ last : gset sconn) →
  public is_private conn →
  process_as_dict env conn = None →
  ∃ h' appended error,
    poll str_list is_private str_conn set_iter env last h =
      (inr (list_to_set (net_connections env)), h') ∧
    s_errors (h_snitch h') = s_errors (h_snitch h) ++ appended ∧
    error ∈ appended ∧
    polling_diagnostic str_conn env conn error ∧
    (∀ other, other ∈ (list_to_set (net_connections env) ∖ last : gset sconn) →
              attributed str_list is_private env other (h_snitch h')) ∧
    (∀ other, other ∈ (list_to_set (net_connections env) ∖ last : gset sconn) →
              public is_private other → process_as_dict env other = None →
              ∃ error', error' ∈ appended ∧ polling_diagnostic str_conn env other error').
Proof.
  intros Hnew (raddr & Hr & Hp) Hd.
  assert (classify is_private env conn = Failed true) as Hc
    by (unfold classify; by rewrite Hr, Hp, Hd).
  destruct (poll_decompose str_list is_private str_conn set_iter env last h)
    as (f & Hf & Hpoll).
  destruct (poll_loop_errors str_list is_private str_conn env
              (set_iter (list_to_set (net_connections env) ∖ last))
              (Frame h (Proc "" "" (CmdStr "") None)))
    as (f1 & Hf1 & polling & Herr & _ & Hfail).
  rewrite Hf in Hf1. injection Hf1 as <-.
  destruct (poll_loop_attributed str_list is_private str_conn env
              (set_iter (list_to_set (net_connections env) ∖ last))
              (Frame h (Proc "" "" (CmdStr "") None))) as (f2 & Hf2 & Hatt).
  rewrite Hf in Hf2. injection Hf2 as <-.
  destruct (Hfail conn true) as (error & Hin & Hdiag);
    [by apply (elem_of_set_iter set_iter set_iter_perm)|done|].
  eexists _, (polling ++ (missed_diagnostic env <$> Dict.keys (h_pcap (fr_heap f)))), error.
  split; [exact Hpoll|]. simpl. simpl in Herr.
  split; [by rewrite Herr, app_assoc|].
  split; [apply elem_of_app; by left|]. split; [done|]. split.
  - intros other Ho. by apply Hatt, (elem_of_set_iter set_iter set_iter_perm).
  - intros other Ho (raddr' & Hr' & Hp') Hd'.
    destruct (Hfail other true) as (error' & Hin' & Hdiag').
    + by apply (elem_of_set_iter set_iter set_iter_perm).
    + unfold classify. by rewrite Hr', Hp', Hd'.
    + exists error'. split; [apply elem_of_app; by left | done].
Qed.

End tick_claims.

Lemma resolution_failure_isolated_witness :
  ∃ h' appended error,
    poll Demo.str_list Demo.is_private Demo.str_conn Demo.set_iter Demo.env_gone ∅
      Demo.heap0 = (inr (list_to_set (net_connections Demo.env_gone)), h') ∧
    s_errors (h_snitch h') = s_errors (h_snitch Demo.heap0) ++ appended ∧
    error ∈ appended ∧
    polling_diagnostic Demo.str_conn Demo.env_gone Demo.conn1 error ∧
    (∀ other, other ∈ (list_to_set (net_connections Demo.env_gone) ∖ ∅ : gset sconn) →
              attributed Demo.str_list Demo.is_private Demo.env_gone other (h_snitch h')) ∧
    (∀ other, other ∈ (list_to_set (net_connections Demo.env_gone) ∖ ∅ : gset sconn) →
              public Demo.is_private other → process_as_dict Demo.env_gone other = None →
              ∃ error', error' ∈ appended ∧
                        polling_diagnostic Demo.str_conn Demo.env_gone other error').
Proof.
  apply (resolution_failure_isolated Demo.str_list Demo.is_private Demo.str_conn
           Demo.set_iter (λ X, reflexivity (elements X)) Demo.env_gone ∅ Demo.heap0
           Demo.conn1).
  - apply elem_of_difference. split; [|apply not_elem_of_empty].
    simpl. apply elem_of_union. left. by apply elem_of_singleton.
  - exists (Addr "93.184.216.34" 443). split; reflexivity.
  - reflexivity.
Defined.

Section candidate_claims.

Context (str_list : list string → string).
Context (is_private : string → option bool).
Context (str_conn : sconn → string).
Context (set_iter : gset sconn → list sconn).
Hypothesis set_iter_perm : ∀ X, set_iter X ≡ₚ elements X.

(** C6. A call of [poll] with a candidate map whose key [port] is the
    local port of no new connection with a public remote address: what
    [poll] appends to [Errors] is the diagnostics of its first loop
    followed by the missed-connection diagnostics, one for each key left
    in the map, and the diagnostic of [port] is there exactly once. And
    an iteration of [loop] with the queue at hand starts from an empty
    candidate map: what the map held when the iteration began has no
    part in it. *)
Theorem missed_connection_once :
  (∀ env last h port,
     NoDup (Dict.keys (h_pcap h)) →
     port ∈ Dict.keys (h_pcap h) →
     (∀ conn, conn ∈ (list_to_set (net_connections env) ∖ last : gset sconn) →
              public is_private conn → a_port (c_laddr conn) ≠ port) →
     ∃ h' polling,
       poll str_list is_private str_conn set_iter env last h =
         (inr (list_to_set (net_connections env)), h') ∧
       s_errors (h_snitch h') =
         s_errors (h_snitch h) ++ polling ++
         (missed_diagnostic env <$> Dict.keys (h_pcap h')) ∧
       (∀ error, error ∈ polling →
          ∃ conn, conn ∈ (list_to_set (net_connections env) ∖ last : gset sconn) ∧
                  polling_diagnostic str_conn env conn error) ∧
       length (filter (λ error, error = missed_diagnostic env port)
                 (missed_diagnostic env <$> Dict.keys (h_pcap h'))) = 1%nat) ∧
  (∀ json_dump sleep_refuses env h pcap_dict connections interval write_counter counter,
     loop_body str_list is_private str_conn set_iter json_dump sleep_refuses env
       (LoopSt (set_pcap (λ _, pcap_dict) h) true connections interval write_counter counter) =
     loop_body str_list is_private str_conn set_iter json_dump sleep_refuses env
       (LoopSt (set_pcap (λ _, []) h) true connections interval write_counter counter)).
Proof.
  split; [|done].
  intros env last h port Hnd Hin Hfree.
  destruct (poll_decompose str_list is_private str_conn set_iter env last h)
    as (f & Hf & Hpoll).
  destruct (poll_loop_errors str_list is_private str_conn env
              (set_iter (list_to_set (net_connections env) ∖ last))
              (Frame h (Proc "" "" (CmdStr "") None)))
    as (f1 & Hf1 & polling & Herr & Hall & _).
  rewrite Hf in Hf1. injection Hf1 as <-.
  destruct (poll_loop_pcap str_list is_private str_conn env
              (set_iter (list_to_set (net_connections env) ∖ last))
              (Frame h (Proc "" "" (CmdStr "") None))) as (f2 & Hf2 & Hkeys & Hnd').
  rewrite Hf in Hf2. injection Hf2 as <-.
  eexists _, polling. split; [exact Hpoll|]. simpl. simpl in Herr, Hkeys, Hnd'.
  split; [by rewrite Herr, app_assoc|]. split.
  - intros error He. destruct (Hall error He) as (c & Hc & Hdiag).
    exists c. split; [by apply (elem_of_set_iter set_iter set_iter_perm)|done].
  - apply filter_eq_once.
    + pose proof (missed_diagnostic_inj env) as Hinj.
      apply (NoDup_fmap_2 (missed_diagnostic env)). by apply Hnd'.
    + apply list_elem_of_fmap. exists port. split; [done|].
      apply Hkeys. split; [done|]. intros c Hc. apply Hfree.
      by apply (elem_of_set_iter set_iter set_iter_perm).
Qed.

End candidate_claims.

Lemma missed_connection_once_witness :
  (∃ h' polling,
     poll Demo.str_list Demo.is_private Demo.str_conn Demo.set_iter Demo.env1 ∅
       Demo.heap_pkt = (inr (list_to_set (net_connections Demo.env1)), h') ∧
     s_errors (h_snitch h') =
       s_errors (h_snitch Demo.heap_pkt) ++ polling ++
       (missed_diagnostic Demo.env1 <$> Dict.keys (h_pcap h')) ∧
     (∀ error, error ∈ polling →
        ∃ conn, conn ∈ (list_to_set (net_connections Demo.env1) ∖ ∅ : gset sconn) ∧
                polling_diagnostic Demo.str_conn Demo.env1 conn error) ∧
     length (filter (λ error, error = missed_diagnostic Demo.env1 50009)
               (missed_diagnostic Demo.env1 <$> Dict.keys (h_pcap h'))) = 1%nat) ∧
  loop_body Demo.str_list Demo.is_private Demo.str_conn Demo.set_iter Demo.json_dump
    Demo.sleep_refuses Demo.env1
    (LoopSt (set_pcap (λ _, [(50009, Demo.pkt)]) Demo.heap0) true ∅ (NFloat float_0_2) 3000 0) =
  loop_body Demo.str_list Demo.is_private Demo.str_conn Demo.set_iter Demo.json_dump
    Demo.sleep_refuses Demo.env1
    (LoopSt (set_pcap (λ _, []) Demo.heap0) true ∅ (NFloat float_0_2) 3000 0).
Proof.
  destruct (missed_connection_once Demo.str_list Demo.is_private Demo.str_conn
              Demo.set_iter (λ X, reflexivity (elements X))) as [H1 H2].
  split; [|apply H2].
  apply (H1 Demo.env1 ∅ Demo.heap_pkt 50009).
  - apply NoDup_singleton.
  - by left.
  - intros conn Hin _. apply elem_of_difference in Hin as [Hin _]. simpl in Hin.
    apply elem_of_union in Hin as [Hin|Hin]; [|by apply elem_of_empty in Hin].
    apply elem_of_singleton in Hin as ->. discriminate.
Defined.


(** ** The drain of the capture queue *)

(** C7. The drain of [loop] takes a record with [q.get()], and [q] is no
    name of [loop] nor of the module (the queue is [queue]): with a
    record in the queue the drain raises [NameError] and the state is as
    it was, so an iteration of [loop] with capture configured and one
    record queued ends in [NameError] with the candidate map empty, where
    the drain as specified gives the map that holds the record under its
    local port. *)
Lemma drain_with_bound (queue : list packet) (known_ports : list Z) (h : heap) :
  drain_with true queue known_ports h =
  (inr tt, set_pcap (drain_spec queue known_ports) h).
Proof.
  revert h. induction queue as [|packet queue IH]; intros h; [by destruct h|].
  simpl. munfold. simpl.
  destruct (decide (k_laddr_port packet ∉ known_ports)); rewrite IH; by destruct h.
Qed.

(** The drain as specified keeps the records whose port is not known. *)
Lemma drain_spec_keys (queue : list packet) (known_ports : list Z) (pcap_dict : Dict.t)
    (port : Z) :
  port ∈ Dict.keys (drain_spec queue known_ports pcap_dict) ↔
  port ∈ Dict.keys pcap_dict ∨
  ∃ packet, packet ∈ queue ∧ k_laddr_port packet = port ∧ port ∉ known_ports.
Proof.
  revert pcap_dict. induction queue as [|packet queue IH]; intros pcap_dict; simpl.
  - split; [by left|]. intros [H|(p & Hp & _)]; [done|]. by apply elem_of_nil in Hp.
  - rewrite IH. destruct (decide (k_laddr_port packet ∉ known_ports)) as [Hn|Hk].
    + rewrite dict_set_keys. split.
      * intros [[->|H]|(p & Hp & He & Hx)]; [right|by left|right].
        -- exists packet. split; [by left|done].
        -- exists p. split; [by right|done].
      * intros [H|(p & Hp & He & Hx)]; [by left; right|].
        apply elem_of_cons in Hp as [->|Hp]; [left; by left|].
        right. by exists p.
    + split.
      * intros [H|(p & Hp & He & Hx)]; [by left|right].
        exists p. split; [by right|done].
      * intros [H|(p & Hp & He & Hx)]; [by left|].
        apply elem_of_cons in Hp as [->|Hp]; [by rewrite He in Hk|].
        right. by exists p.
Qed.

Lemma dict_set_elem (k k' : Z) (v v' : packet) (d : Dict.t) :
  (k', v') ∈ Dict.set k v d → (k', v') = (k, v) ∨ (k', v') ∈ d.
Proof.
  induction d as [|[k0 v0] d IH]; simpl.
  - intros H. apply list_elem_of_singleton in H. by left.
  - destruct (decide (k0 = k)) as [->|Hne]; rewrite !elem_of_cons.
    + intros [H|H]; [by left | right; by right].
    + intros [H|H]; [right; by left|]. destruct (IH H); [by left | right; by right].
Qed.

(** What the map of the drain as specified holds under a port is a record
    of the queue with that local port. *)
Lemma drain_spec_values (queue : list packet) (known_ports : list Z) (pcap_dict : Dict.t)
    (port : Z) (record : packet) :
  (port, record) ∈ drain_spec queue known_ports pcap_dict →
  (port, record) ∈ pcap_dict ∨
  (record ∈ queue ∧ k_laddr_port record = port ∧ port ∉ known_ports).
Proof.
  revert pcap_dict. induction queue as [|packet queue IH]; intros pcap_dict; simpl.
  - by left.
  - intros H. apply IH in H as [H|(Hin & He & Hk)].
    + destruct (decide (k_laddr_port packet ∉ known_ports)) as [Hn|_]; [|by left].
      apply dict_set_elem in H as [[= -> ->]|H]; [right|by left].
      split; [by left|done].
    + right. split; [by right|done].
Qed.

Theorem drain_raises_name_error :
  bound_in_loop "q" = false ∧
  (∀ packet queue known_ports h,
     drain (packet :: queue) known_ports h = (inl NameError, h)) ∧
  loop_body Demo.str_list Demo.is_private Demo.str_conn Demo.set_iter Demo.json_dump
    Demo.sleep_refuses Demo.env_captured Demo.loop0 = (inl NameError, Demo.loop0) ∧
  drain_spec (captured Demo.env_captured) [] [] = [(50009, Demo.pkt)] ∧
  (∀ queue known_ports h,
     drain_with true queue known_ports h =
     (inr tt, set_pcap (drain_spec queue known_ports) h)).
Proof. repeat split. apply drain_with_bound. Qed.

(** * Further properties of the code *)

(** ** The state only grows *)

Lemma string_app_nil_r (s : string) : s +:+ "" = s.
Proof.
  induction s as [|c s IH]; [done|].
  change (String c (s +:+ "") = String c s). by f_equal.
Qed.

Lemma entry_grows_refl (entry : proc_entry) : entry_grows entry entry.
Proof. repeat split; try done. exists "". by rewrite string_app_nil_r. Qed.

Lemma string_app_assoc (a b c : string) : (a +:+ b) +:+ c = a +:+ (b +:+ c).
Proof.
  induction a as [|x a IH]; [done|].
  change (String x ((a +:+ b) +:+ c) = String x (a +:+ (b +:+ c))). by f_equal.
Qed.

Lemma entry_grows_trans (a b c : proc_entry) :
  entry_grows a b → entry_grows b c → entry_grows a c.
Proof.
  intros (F1 & [m1 N1] & C1 & R1 & D1) (F2 & [m2 N2] & C2 & R2 & D2).
  repeat split.
  - congruence.
  - exists (m1 +:+ m2). by rewrite N2, N1, string_app_assoc.
  - by etrans.
  - by etrans.
  - lia.
Qed.

Lemma snitch_grows_refl (s : snitch) : snitch_grows s s.
Proof.
  repeat split; try done. intros exe entry H. exists entry.
  split; [done|]. apply entry_grows_refl.
Qed.

Lemma snitch_grows_trans (a b c : snitch) :
  snitch_grows a b → snitch_grows b c → snitch_grows a c.
Proof.
  intros (C1 & E1 & X1 & N1 & P1) (C2 & E2 & X2 & N2 & P2). repeat split.
  - congruence.
  - by etrans.
  - by etrans.
  - by etrans.
  - intros exe entry H. destruct (P1 _ _ H) as (e1 & H1 & G1).
    destruct (P2 _ _ H1) as (e2 & H2 & G2). exists e2. split; [done|].
    by apply (entry_grows_trans _ e1).
Qed.

Lemma update_fields_grows (str_list : list string → string) proc raddr_ip ctime entry :
  entry_grows entry (update_fields str_list proc raddr_ip ctime entry).
Proof.
  rewrite update_fields_run. repeat split; simpl.
  - destruct (Py.str_contains (e_name entry) (p_name proc)); [|by eexists].
    destruct (entry_grows_refl entry) as (_ & Hn & _). exact Hn.
  - case_decide; [done|]. by apply prefix_app_r.
  - case_decide; [done|]. by apply prefix_app_r.
  - case_decide; lia.
Qed.

Section growth.

Context (str_list : list string → string).
Context (is_private : string → option bool).
Context (str_conn : sconn → string).
Context (set_iter : gset sconn → list sconn).

(** The first loop of [poll] only adds to the snitch and to what has been
    shown, and leaves the state file alone. *)
Lemma poll_loop_grows env l f :
  ∃ f', for_each l (poll_conn str_list is_private str_conn env) f = (inr tt, f') ∧
    snitch_grows (h_snitch (fr_heap f)) (h_snitch (fr_heap f')) ∧
    h_out (fr_heap f) `prefix_of` h_out (fr_heap f') ∧
    h_fs (fr_heap f') = h_fs (fr_heap f).
Proof.
  apply (for_each_inv (λ _ f',
    snitch_grows (h_snitch (fr_heap f)) (h_snitch (fr_heap f')) ∧
    h_out (fr_heap f) `prefix_of` h_out (fr_heap f') ∧
    h_fs (fr_heap f') = h_fs (fr_heap f))).
  - split; [apply snitch_grows_refl|done].
  - intros done x rest s _ (IHs & IHo & IHf). turn is_private env x s Hc.
    + done.
    + split; [|split; [by etrans; [exact IHo|apply prefix_app_r]|done]].
      eapply snitch_grows_trans; [exact IHs|].
      repeat split; simpl; try done; [by apply prefix_app_r|].
      intros exe entry H. exists entry. split; [done|]. apply entry_grows_refl.
    + destruct (procs !! p_exe proc) as [old|] eqn:E; simpl.
      * split; [|by split].
        eapply snitch_grows_trans; [exact IHs|]. repeat split; simpl; try done.
        intros exe entry H. destruct (decide (p_exe proc = exe)) as [<-|Hne].
        -- rewrite lookup_insert_eq. eexists. split; [done|].
           assert (entry = old) as -> by congruence. apply update_fields_grows.
        -- rewrite lookup_insert_ne by done. exists entry.
           split; [done|]. apply entry_grows_refl.
      * split; [|split; [by etrans; [exact IHo|apply prefix_app_r]|done]].
        eapply snitch_grows_trans; [exact IHs|].
        repeat split; simpl; try done; try (by apply prefix_app_r).
        intros exe entry H. exists entry. split; [|apply entry_grows_refl].
        rewrite lookup_insert_ne; [done|]. intros <-. congruence.
Qed.

(** [poll] raises in no case, only adds to the snitch and to what has
    been shown, and leaves the state file alone. *)
Lemma poll_frame env last h :
  ∃ h', poll str_list is_private str_conn set_iter env last h =
          (inr (list_to_set (net_connections env)), h') ∧
        snitch_grows (h_snitch h) (h_snitch h') ∧
        h_out h `prefix_of` h_out h' ∧
        h_fs h' = h_fs h.
Proof.
  destruct (poll_loop_grows env (set_iter (list_to_set (net_connections env) ∖ last))
              (Frame h (Proc "" "" (CmdStr "") None))) as (f & Hf & Hg & Ho & Hfs).
  eexists. split; [by apply poll_run|]. simpl in *. split; [|split; [|done]].
  - eapply snitch_grows_trans; [exact Hg|].
    destruct (h_snitch (fr_heap f)) as [cfg errs exes names procs].
    repeat split; simpl; try done; [by apply prefix_app_r|].
    intros exe entry H. exists entry. split; [done|]. apply entry_grows_refl.
  - etrans; [exact Ho|]. by apply prefix_app_r.
Qed.


(** X2. A tick of [poll] removes nothing: [Config] is as it was,
    [Errors], [Executables] and [Names] are what they were with more at
    the end, and every entry is still there under its key, with the same
    [first seen], its name, command lines and remote addresses extended
    at the end, and [days seen] not lower. The same holds over any run of
    ticks. *)
Theorem poll_only_grows :
  (∀ env last h,
     snitch_grows (h_snitch h)
       (h_snitch (poll str_list is_private str_conn set_iter env last h).2)) ∧
  (∀ ticks last h,
     snitch_grows (h_snitch h)
       (h_snitch (poll_ticks str_list is_private str_conn set_iter ticks last h).2)).
Proof.
  split.
  - intros env last h. destruct (poll_frame env last h) as (h' & -> & Hg & _). done.
  - intros ticks. induction ticks as [|[env pcap_dict] ticks IH]; intros last h.
    + apply snitch_grows_refl.
    + simpl. unfold mbind, M_bind.
      change (poll_with str_list is_private str_conn set_iter env pcap_dict last h)
        with (poll str_list is_private str_conn set_iter env last
                (set_pcap (λ _, pcap_dict) h)).
      destruct (poll_frame env last (set_pcap (λ _, pcap_dict) h)) as (h' & -> & Hg & _).
      eapply snitch_grows_trans; [exact Hg|]. apply IH.
Qed.

End growth.

(** ** Invariants of the snitch over runs of ticks *)

Section snitch_invariant.

Context (str_list : list string → string).
Context (is_private : string → option bool).
Context (str_conn : sconn → string).
Context (set_iter : gset sconn → list sconn).

(** A property of the snitch that does not look at [Errors] and that a
    creation under a new key and an update of an entry keep. *)
Context (I : snitch → Prop).
Hypothesis I_errors : ∀ cfg errs errs' exes names procs,
  I (Snitch cfg errs exes names procs) → I (Snitch cfg errs' exes names procs).
Hypothesis I_create : ∀ cfg errs exes names procs proc raddr_ip ctime,
  I (Snitch cfg errs exes names procs) →
  procs !! p_exe proc = None →
  I (Snitch cfg errs (exes ++ [p_exe proc])
       (names ++ [if decide (p_name proc ∈ names)
                  then p_name proc +:+ " (different executable location)"
                  else p_name proc])
       (<[p_exe proc := Entry (p_name proc) [str_cmdline str_list (p_cmdline proc)]
                          ctime ctime 1 [raddr_ip]]> procs)).
Hypothesis I_update : ∀ cfg errs exes names procs proc raddr_ip ctime old,
  I (Snitch cfg errs exes names procs) →
  procs !! p_exe proc = Some old →
  I (Snitch cfg errs exes names
       (<[p_exe proc := update_fields str_list proc raddr_ip ctime old]> procs)).

Lemma poll_loop_invariant env l f :
  I (h_snitch (fr_heap f)) →
  ∃ f', for_each l (poll_conn str_list is_private str_conn env) f = (inr tt, f') ∧
        I (h_snitch (fr_heap f')).
Proof.
  intros H0. apply (for_each_inv (λ _ f', I (h_snitch (fr_heap f')))); [done|].
  intros done x rest s _ IH. turn is_private env x s Hc.
  - done.
  - by apply (I_errors _ errs).
  - destruct (procs !! p_exe proc) as [old|] eqn:E; simpl.
    + by apply I_update.
    + by apply I_create.
Qed.

Lemma poll_invariant env last h :
  I (h_snitch h) →
  I (h_snitch (poll str_list is_private str_conn set_iter env last h).2).
Proof.
  intros H0.
  destruct (poll_loop_invariant env (set_iter (list_to_set (net_connections env) ∖ last))
              (Frame h (Proc "" "" (CmdStr "") None)) H0) as (f & Hf & HI).
  erewrite poll_run by exact Hf. simpl.
  destruct (h_snitch (fr_heap f)) as [cfg errs exes names procs].
  by apply (I_errors _ errs).
Qed.

Lemma poll_ticks_invariant ticks last h :
  I (h_snitch h) →
  I (h_snitch (poll_ticks str_list is_private str_conn set_iter ticks last h).2).
Proof.
  revert last h. induction ticks as [|[env pcap_dict] ticks IH]; intros last h H0; [done|].
  simpl. unfold mbind, M_bind.
  change (poll_with str_list is_private str_conn set_iter env pcap_dict last h)
    with (poll str_list is_private str_conn set_iter env last (set_pcap (λ _, pcap_dict) h)).
  pose proof (poll_invariant env last (set_pcap (λ _, pcap_dict) h) H0) as H1.
  destruct (poll_decompose str_list is_private str_conn set_iter env last
              (set_pcap (λ _, pcap_dict) h)) as (f & _ & Hp).
  rewrite Hp in *. by apply IH.
Qed.

End snitch_invariant.

(** ** The audit trail *)

Section trail.

Context (str_list : list string → string).
Context (is_private : string → option bool).
Context (str_conn : sconn → string).
Context (set_iter : gset sconn → list sconn).

(** X3. From the fresh default state, after any run of ticks of [poll]:
    [Executables] holds every key of [Processes] and nothing else, each
    once, and [Names] is as long as [Executables]. *)
Theorem executables_mirror_processes ticks pcap_dict out fsys :
  trail_mirrors (h_snitch
    (poll_ticks str_list is_private str_conn set_iter ticks ∅
       (Heap default_snitch pcap_dict out fsys)).2).
Proof.
  apply (poll_ticks_invariant str_list is_private str_conn set_iter trail_mirrors).
  - done.
  - intros cfg errs exes names procs proc raddr_ip ctime (Hnd & Hlen & Hdom) Hnone.
    unfold trail_mirrors in *. simpl in *. split; [|split].
    + apply NoDup_app. split; [done|]. split; [|apply NoDup_singleton].
      intros exe Hin Hin'. apply list_elem_of_singleton in Hin' as ->.
      apply Hdom, elem_of_dom in Hin. rewrite Hnone in Hin. by destruct Hin.
    + rewrite !length_app. simpl. lia.
    + intros exe.
      rewrite elem_of_app, list_elem_of_singleton, dom_insert_L, Hdom,
        elem_of_union, elem_of_singleton.
      tauto.
  - intros cfg errs exes names procs proc raddr_ip ctime old (Hnd & Hlen & Hdom) Hold.
    unfold trail_mirrors in *. simpl in *. split; [done|]. split; [done|].
    intros exe. rewrite dom_insert_L, Hdom, elem_of_union, elem_of_singleton.
    assert (p_exe proc ∈ dom procs) by (apply elem_of_dom; by eexists).
    split; [by right | intros [->|?]; done].
  - unfold trail_mirrors. simpl. split; [apply NoDup_nil_2|]. split; [done|].
    intros exe. rewrite dom_empty_L. split; intros H.
    + by apply elem_of_nil in H.
    + by apply elem_of_empty in H.
Qed.


(** X5. From the fresh default state, after any run of ticks of [poll]:
    in every entry [cmdlines] and [remote addresses] are not empty and
    hold nothing twice. *)
Theorem entry_lists_are_sets ticks pcap_dict out fsys :
  entries_are_sets (h_snitch
    (poll_ticks str_list is_private str_conn set_iter ticks ∅
       (Heap default_snitch pcap_dict out fsys)).2).
Proof.
  apply (poll_ticks_invariant str_list is_private str_conn set_iter entries_are_sets).
  - done.
  - intros cfg errs exes names procs proc raddr_ip ctime Hall Hnone exe entry.
    simpl. destruct (decide (p_exe proc = exe)) as [<-|Hne].
    + rewrite lookup_insert_eq. intros [= <-]. simpl.
      repeat split; try done; apply NoDup_singleton.
    + rewrite lookup_insert_ne by done. apply Hall.
  - intros cfg errs exes names procs proc raddr_ip ctime old Hall Hold exe entry.
    cbn [s_processes]. destruct (decide (p_exe proc = exe)) as [<-|Hne].
    + rewrite lookup_insert_eq. intros [= <-].
      destruct (Hall _ _ Hold) as (Hc & Hc' & Hr & Hr').
      rewrite update_fields_run. cbn [e_cmdlines e_remote_addresses]. repeat split.
      * case_decide; [done|]. apply NoDup_app. split; [done|].
        split; [|apply NoDup_singleton].
        intros x Hx Hx'. by apply list_elem_of_singleton in Hx' as ->.
      * case_decide; [done|]. by destruct (e_cmdlines old).
      * case_decide; [done|]. apply NoDup_app. split; [done|].
        split; [|apply NoDup_singleton].
        intros x Hx Hx'. by apply list_elem_of_singleton in Hx' as ->.
      * case_decide; [done|]. by destruct (e_remote_addresses old).
    + rewrite lookup_insert_ne by done. apply Hall.
  - intros exe entry H. simpl in H. by rewrite lookup_empty in H.
Qed.

End trail.

(** ** What a tick looks at *)

Section tick_scope.

Context (str_list : list string → string).
Context (is_private : string → option bool).
Context (str_conn : sconn → string).
Context (set_iter : gset sconn → list sconn).
Hypothesis set_iter_perm : ∀ X, set_iter X ≡ₚ elements X.

Lemma set_iter_empty : set_iter ∅ = [].
Proof. apply Permutation_nil_r. by rewrite set_iter_perm, elements_empty. Qed.

(** X6. A tick in which every connection of the snapshot was in the last
    snapshot attributes nothing: [poll] only reports the candidates of
    the map as missed, and with an empty map it leaves the whole heap as
    it is. *)
Theorem poll_known_connections env last h :
  list_to_set (net_connections env) ⊆ last →
  poll str_list is_private str_conn set_iter env last h =
    (inr (list_to_set (net_connections env)),
     Heap (set_errors (λ l, l ++ (missed_diagnostic env <$> Dict.keys (h_pcap h)))
             (h_snitch h))
          (h_pcap h)
          (h_out h ++ ((λ port, (Stderr, "picosnitch missed connection: " +:+ pretty port))
                         <$> Dict.keys (h_pcap h)))
          (h_fs h)) ∧
  (h_pcap h = [] →
   poll str_list is_private str_conn set_iter env last h =
     (inr (list_to_set (net_connections env)), h)).
Proof.
  intros Hsub.
  assert (list_to_set (net_connections env) ∖ last = (∅ : gset sconn)) as Hnew.
  { apply set_eq. intros x. rewrite elem_of_difference.
    split; [intros [H1 H2]; by apply Hsub in H1 | intros H; by apply elem_of_empty in H]. }
  assert (poll str_list is_private str_conn set_iter env last h =
    (inr (list_to_set (net_connections env)),
     Heap (set_errors (λ l, l ++ (missed_diagnostic env <$> Dict.keys (h_pcap h)))
             (h_snitch h))
          (h_pcap h)
          (h_out h ++ ((λ port, (Stderr, "picosnitch missed connection: " +:+ pretty port))
                         <$> Dict.keys (h_pcap h)))
          (h_fs h))) as Hrun.
  { apply (poll_run _ _ _ _ env last h (Frame h (Proc "" "" (CmdStr "") None))).
    by rewrite Hnew, set_iter_empty. }
  split; [done|]. intros Hpcap. rewrite Hrun, Hpcap.
  destruct h as [[cfg errs exes names procs] pcap out fsys]. simpl.
  unfold set_errors. simpl. simpl in Hpcap. by rewrite !app_nil_r, Hpcap.
Qed.

(** X7. The candidates [poll] reports as missed are those of the map
    whose port is the local port of no new connection with a public
    remote address: a candidate that such a connection matches is taken
    out and not reported, whether the owner of the connection resolves
    or not. *)
Theorem missed_iff_unmatched env last h :
  NoDup (Dict.keys (h_pcap h)) →
  ∃ h' polling,
    poll str_list is_private str_conn set_iter env last h =
      (inr (list_to_set (net_connections env)), h') ∧
    s_errors (h_snitch h') =
      s_errors (h_snitch h) ++ polling ++
      (missed_diagnostic env <$> Dict.keys (h_pcap h')) ∧
    NoDup (Dict.keys (h_pcap h')) ∧
    ∀ port,
      port ∈ Dict.keys (h_pcap h') ↔
      port ∈ Dict.keys (h_pcap h) ∧
      ∀ conn, conn ∈ (list_to_set (net_connections env) ∖ last : gset sconn) →
              public is_private conn → a_port (c_laddr conn) ≠ port.
Proof.
  intros Hnd.
  destruct (poll_decompose str_list is_private str_conn set_iter env last h)
    as (f & Hf & Hpoll).
  destruct (poll_loop_errors str_list is_private str_conn env
              (set_iter (list_to_set (net_connections env) ∖ last))
              (Frame h (Proc "" "" (CmdStr "") None)))
    as (f1 & Hf1 & polling & Herr & _ & _).
  rewrite Hf in Hf1. injection Hf1 as <-.
  destruct (poll_loop_pcap str_list is_private str_conn env
              (set_iter (list_to_set (net_connections env) ∖ last))
              (Frame h (Proc "" "" (CmdStr "") None))) as (f2 & Hf2 & Hkeys & Hnd').
  rewrite Hf in Hf2. injection Hf2 as <-.
  eexists _, polling. split; [exact Hpoll|]. simpl. simpl in Herr, Hkeys, Hnd'.
  split; [by rewrite Herr, app_assoc|]. split; [by apply Hnd'|].
  intros port. rewrite Hkeys. split; intros [H1 H2]; (split; [done|]);
    intros conn Hc; apply H2; by apply (elem_of_set_iter set_iter set_iter_perm).
Qed.

(** X8. A tick whose new connections all resolve to executables that
    have an entry creates nothing: [Executables], [Names] and the keys of
    [Processes] are as they were. *)
Theorem poll_known_executables env last h :
  (∀ conn exe, conn ∈ (list_to_set (net_connections env) ∖ last : gset sconn) →
               resolved_exe is_private env conn = Some exe →
               exe ∈ dom (s_processes (h_snitch h))) →
  ∃ h', poll str_list is_private str_conn set_iter env last h =
          (inr (list_to_set (net_connections env)), h') ∧
        s_executables (h_snitch h') = s_executables (h_snitch h) ∧
        s_names (h_snitch h') = s_names (h_snitch h) ∧
        dom (s_processes (h_snitch h')) = dom (s_processes (h_snitch h)).
Proof.
  intros Hknown.
  assert (∃ f, for_each (set_iter (list_to_set (net_connections env) ∖ last))
                 (poll_conn str_list is_private str_conn env)
                 (Frame h (Proc "" "" (CmdStr "") None)) = (inr tt, f) ∧
               s_executables (h_snitch (fr_heap f)) = s_executables (h_snitch h) ∧
               s_names (h_snitch (fr_heap f)) = s_names (h_snitch h) ∧
               dom (s_processes (h_snitch (fr_heap f))) = dom (s_processes (h_snitch h)))
    as (f & Hf & He & Hn & Hd).
  { apply (for_each_inv (λ _ f,
      s_executables (h_snitch (fr_heap f)) = s_executables (h_snitch h) ∧
      s_names (h_snitch (fr_heap f)) = s_names (h_snitch h) ∧
      dom (s_processes (h_snitch (fr_heap f))) = dom (s_processes (h_snitch h)))); [done|].
    intros done x rest s Hl (IHe & IHn & IHd). turn is_private env x s Hc; [done|done|].
    assert (p_exe proc ∈ dom procs) as Hin.
    { rewrite IHd. apply (Hknown x).
      - apply (elem_of_set_iter set_iter set_iter_perm). rewrite Hl.
        apply elem_of_app. right. by left.
      - apply resolved_exe_classify. by exists raddr, proc. }
    apply elem_of_dom in Hin as [old Hold]. rewrite Hold. simpl.
    split; [done|]. split; [done|]. rewrite dom_insert_L, <- IHd.
    assert (p_exe proc ∈ dom procs) by (apply elem_of_dom; by eexists).
    apply set_eq. intros y. rewrite elem_of_union, elem_of_singleton.
    split; [intros [->|?]; done | by right]. }
  eexists. split; [by apply poll_run|]. simpl. by rewrite He, Hn, Hd.
Qed.

End tick_scope.

Lemma poll_known_connections_witness :
  poll Demo.str_list Demo.is_private Demo.str_conn Demo.set_iter Demo.env1 {[Demo.conn1]}
    Sample.heap_candidates =
    (inr (list_to_set (net_connections Demo.env1)),
     Heap (set_errors
             (λ l, l ++ (missed_diagnostic Demo.env1 <$> Dict.keys (h_pcap Sample.heap_candidates)))
             (h_snitch Sample.heap_candidates))
          (h_pcap Sample.heap_candidates)
          (h_out Sample.heap_candidates ++
             ((λ port, (Stderr, "picosnitch missed connection: " +:+ pretty port))
                <$> Dict.keys (h_pcap Sample.heap_candidates)))
          (h_fs Sample.heap_candidates)) ∧
  poll Demo.str_list Demo.is_private Demo.str_conn Demo.set_iter Demo.env1 {[Demo.conn1]}
    Sample.heap1 = (inr (list_to_set (net_connections Demo.env1)), Sample.heap1).
Proof.
  assert (list_to_set (net_connections Demo.env1) ⊆ ({[Demo.conn1]} : gset sconn)) as Hsub.
  { intros x Hx. apply elem_of_list_to_set in Hx. simpl in Hx.
    apply list_elem_of_singleton in Hx as ->. by apply elem_of_singleton. }
  split.
  - apply (poll_known_connections Demo.str_list Demo.is_private Demo.str_conn
             Demo.set_iter (λ X, reflexivity (elements X)) Demo.env1 {[Demo.conn1]}
             Sample.heap_candidates Hsub).
  - apply (poll_known_connections Demo.str_list Demo.is_private Demo.str_conn
             Demo.set_iter (λ X, reflexivity (elements X)) Demo.env1 {[Demo.conn1]}
             Sample.heap1 Hsub). reflexivity.
Defined.

Lemma missed_iff_unmatched_witness :
  ∃ h' polling,
    poll Demo.str_list Demo.is_private Demo.str_conn Demo.set_iter Sample.env_stale
      {[Demo.conn1]} Sample.heap_candidates =
      (inr (list_to_set (net_connections Sample.env_stale)), h') ∧
    s_errors (h_snitch h') =
      s_errors (h_snitch Sample.heap_candidates) ++ polling ++
      (missed_diagnostic Sample.env_stale <$> Dict.keys (h_pcap h')) ∧
    NoDup (Dict.keys (h_pcap h')) ∧
    ∀ port,
      port ∈ Dict.keys (h_pcap h') ↔
      port ∈ Dict.keys (h_pcap Sample.heap_candidates) ∧
      ∀ conn,
        conn ∈ (list_to_set (net_connections Sample.env_stale) ∖ {[Demo.conn1]} : gset sconn) →
        public Demo.is_private conn → a_port (c_laddr conn) ≠ port.
Proof.
  apply (missed_iff_unmatched Demo.str_list Demo.is_private Demo.str_conn Demo.set_iter
           (λ X, reflexivity (elements X)) Sample.env_stale {[Demo.conn1]}
           Sample.heap_candidates).
  simpl. apply NoDup_cons. split; [|apply NoDup_singleton].
  intros H. by apply list_elem_of_singleton in H.
Defined.

Lemma poll_known_executables_witness :
  ∃ h', poll Demo.str_list Demo.is_private Demo.str_conn Demo.set_iter Sample.env_both
          {[Demo.conn1]} Sample.heap1 =
          (inr (list_to_set (net_connections Sample.env_both)), h') ∧
        s_executables (h_snitch h') = s_executables (h_snitch Sample.heap1) ∧
        s_names (h_snitch h') = s_names (h_snitch Sample.heap1) ∧
        dom (s_processes (h_snitch h')) = dom (s_processes (h_snitch Sample.heap1)).
Proof.
  apply (poll_known_executables Demo.str_list Demo.is_private Demo.str_conn Demo.set_iter
           (λ X, reflexivity (elements X)) Sample.env_both {[Demo.conn1]} Sample.heap1).
  intros conn exe Hin Hr. apply elem_of_difference in Hin as [Hin Hnot].
  apply elem_of_list_to_set in Hin. simpl in Hin.
  apply elem_of_cons in Hin as [->|Hin]; [exfalso; apply Hnot; by apply elem_of_singleton|].
  apply list_elem_of_singleton in Hin as ->. injection Hr as <-.
  apply elem_of_dom. eexists. reflexivity.
Defined.

(** ** What a tick writes down *)

Section tick_records.

Context (str_list : list string → string).
Context (is_private : string → option bool).
Context (str_conn : sconn → string).
Context (set_iter : gset sconn → list sconn).
Hypothesis set_iter_perm : ∀ X, set_iter X ≡ₚ elements X.

(** The local [proc] during the first loop is the one the loop began with
    or the owner of a connection the loop resolved, and the diagnostics
    of the loop are written from such a [proc]. *)
Lemma poll_loop_proc env l f :
  ∃ f', for_each l (poll_conn str_list is_private str_conn env) f = (inr tt, f') ∧
    ∃ polling,
      s_errors (h_snitch (fr_heap f')) = s_errors (h_snitch (fr_heap f)) ++ polling ∧
      ∀ error, error ∈ polling →
        ∃ conn proc, conn ∈ l ∧
          (proc = fr_proc f ∨
           ∃ earlier raddr, earlier ∈ l ∧
             classify is_private env earlier = Resolved raddr proc) ∧
          error = now env +:+ (" " +:+ polling_error str_conn conn proc).
Proof.
  pose (Q := λ proc : procinfo,
    proc = fr_proc f ∨
    ∃ earlier raddr, earlier ∈ l ∧ classify is_private env earlier = Resolved raddr proc).
  assert (∃ f', for_each l (poll_conn str_list is_private str_conn env) f = (inr tt, f') ∧
    Q (fr_proc f') ∧
    ∃ polling,
      s_errors (h_snitch (fr_heap f')) = s_errors (h_snitch (fr_heap f)) ++ polling ∧
      ∀ error, error ∈ polling →
        ∃ conn proc, conn ∈ l ∧ Q proc ∧
          error = now env +:+ (" " +:+ polling_error str_conn conn proc))
    as (f' & Hf & _ & H); [|by exists f'].
  apply (for_each_inv (λ _ f',
    Q (fr_proc f') ∧
    ∃ polling,
      s_errors (h_snitch (fr_heap f')) = s_errors (h_snitch (fr_heap f)) ++ polling ∧
      ∀ error, error ∈ polling →
        ∃ conn proc, conn ∈ l ∧ Q proc ∧
          error = now env +:+ (" " +:+ polling_error str_conn conn proc))).
  - split; [by left|]. exists []. rewrite app_nil_r. split; [done|].
    intros e He. by apply elem_of_nil in He.
  - intros done x rest s Hl (HQ & polling & Herr & Hall).
    assert (x ∈ l) as Hx by (rewrite Hl; apply elem_of_app; right; by left).
    turn is_private env x s Hc.
    + split; [done|]. by exists polling.
    + split; [done|].
      exists (polling ++ [now env +:+ (" " +:+ polling_error str_conn x proc0)]).
      split; [by rewrite Herr, app_assoc|].
      intros e He. apply elem_of_app in He as [He|He]; [by apply Hall|].
      apply list_elem_of_singleton in He as ->. by exists x, proc0.
    + split; [right; by exists x, raddr|].
      exists polling. split; [by destruct (procs !! p_exe proc)|done].
Qed.

(** X9. The diagnostic [poll] writes for a connection whose [try] raised
    ends in "{process no longer exists}" or in a pid; it ends in a pid
    only when that pid is the pid of the connection and also the pid of
    the process that an earlier connection of the same tick resolved to
    (the [proc] at hand is the one of the last lookup that returned, not
    of the lookup that failed). *)
Theorem polling_error_names_stale_pid env last h :
  ∃ h' polling,
    poll str_list is_private str_conn set_iter env last h =
      (inr (list_to_set (net_connections env)), h') ∧
    s_errors (h_snitch h') =
      s_errors (h_snitch h) ++ polling ++
      (missed_diagnostic env <$> Dict.keys (h_pcap h')) ∧
    ∀ error, error ∈ polling →
      ∃ conn, conn ∈ (list_to_set (net_connections env) ∖ last : gset sconn) ∧
        (error = now env +:+ (" " +:+ (str_conn conn +:+ "{process no longer exists}")) ∨
         ∃ pid earlier proc,
           c_pid conn = Some pid ∧
           error = now env +:+ (" " +:+ (str_conn conn +:+ pretty pid)) ∧
           earlier ∈ (list_to_set (net_connections env) ∖ last : gset sconn) ∧
           public is_private earlier ∧
           process_as_dict env earlier = Some proc ∧
           p_pid proc = Some pid).
Proof.
  destruct (poll_decompose str_list is_private str_conn set_iter env last h)
    as (f & Hf & Hpoll).
  destruct (poll_loop_proc env (set_iter (list_to_set (net_connections env) ∖ last))
              (Frame h (Proc "" "" (CmdStr "") None)))
    as (f1 & Hf1 & polling & Herr & Hall).
  rewrite Hf in Hf1. injection Hf1 as <-.
  eexists _, polling. split; [exact Hpoll|]. simpl. simpl in Herr.
  split; [by rewrite Herr, app_assoc|].
  intros error He. destruct (Hall error He) as (conn & proc & Hc & HQ & ->).
  exists conn. split; [by apply (elem_of_set_iter set_iter set_iter_perm)|].
  unfold polling_error. simpl in HQ.
  destruct HQ as [->|(earlier & raddr & Hin & Hcl)].
  - left. simpl. by destruct (c_pid conn).
  - destruct (pid_eq (c_pid conn) (p_pid proc)) eqn:Hpid; [|by left].
    right. unfold pid_eq in Hpid.
    destruct (c_pid conn) as [a|] eqn:Ha; [|done].
    destruct (p_pid proc) as [b|] eqn:Hb; [|done].
    apply bool_decide_eq_true in Hpid as <-.
    apply classify_resolved in Hcl as (Hr & Hp & Hd).
    exists a, earlier, proc. split; [done|]. split; [done|].
    split; [by apply (elem_of_set_iter set_iter set_iter_perm)|].
    split; [by exists raddr|done].
Qed.

End tick_records.

Lemma polling_error_names_stale_pid_witness :
  ∃ h' polling,
    poll Demo.str_list Demo.is_private Demo.str_conn Demo.set_iter Sample.env_stale ∅
      Demo.heap0 = (inr (list_to_set (net_connections Sample.env_stale)), h') ∧
    s_errors (h_snitch h') =
      s_errors (h_snitch Demo.heap0) ++ polling ++
      (missed_diagnostic Sample.env_stale <$> Dict.keys (h_pcap h')) ∧
    ∀ error, error ∈ polling →
      ∃ conn, conn ∈ (list_to_set (net_connections Sample.env_stale) ∖ ∅ : gset sconn) ∧
        (error = now Sample.env_stale +:+
                   (" " +:+ (Demo.str_conn conn +:+ "{process no longer exists}")) ∨
         ∃ pid earlier proc,
           c_pid conn = Some pid ∧
           error = now Sample.env_stale +:+ (" " +:+ (Demo.str_conn conn +:+ pretty pid)) ∧
           earlier ∈ (list_to_set (net_connections Sample.env_stale) ∖ ∅ : gset sconn) ∧
           public Demo.is_private earlier ∧
           process_as_dict Sample.env_stale earlier = Some proc ∧
           p_pid proc = Some pid).
Proof.
  apply (polling_error_names_stale_pid Demo.str_list Demo.is_private Demo.str_conn
           Demo.set_iter (λ X, reflexivity (elements X)) Sample.env_stale ∅ Demo.heap0).
Defined.

(** ** Notifications *)


Section notifications.

Context (str_list : list string → string).
Context (is_private : string → option bool).
Context (str_conn : sconn → string).
Context (set_iter : gset sconn → list sconn).



End notifications.

(** ** Days within a tick *)

Section days_in_tick.

Context (str_list : list string → string).
Context (is_private : string → option bool).
Context (str_conn : sconn → string).
Context (set_iter : gset sconn → list sconn).
Hypothesis set_iter_perm : ∀ X, set_iter X ≡ₚ elements X.

(** An entry over the first loop: as it was while no connection of its
    executable has been resolved, and from the first such connection on
    last seen at the time of the tick, with one day more when the date
    differs from the one it had. *)
Lemma poll_loop_entry env l f exe entry :
  s_processes (h_snitch (fr_heap f)) !! exe = Some entry →
  ∃ f', for_each l (poll_conn str_list is_private str_conn env) f = (inr tt, f') ∧
    ∃ entry', s_processes (h_snitch (fr_heap f')) !! exe = Some entry' ∧
      (((∀ conn, conn ∈ l → resolved_exe is_private env conn ≠ Some exe) ∧
        entry' = entry) ∨
       ((∃ conn, conn ∈ l ∧ resolved_exe is_private env conn = Some exe) ∧
        e_last_seen entry' = now env ∧
        e_days_seen entry' =
          if decide (date_of (now env) = date_of (e_last_seen entry))
          then e_days_seen entry else (e_days_seen entry + 1)%Z)).
Proof.
  intros Hentry.
  apply (for_each_inv (λ done f',
    ∃ entry', s_processes (h_snitch (fr_heap f')) !! exe = Some entry' ∧
      (((∀ conn, conn ∈ done → resolved_exe is_private env conn ≠ Some exe) ∧
        entry' = entry) ∨
       ((∃ conn, conn ∈ done ∧ resolved_exe is_private env conn = Some exe) ∧
        e_last_seen entry' = now env ∧
        e_days_seen entry' =
          if decide (date_of (now env) = date_of (e_last_seen entry))
          then e_days_seen entry else (e_days_seen entry + 1)%Z)))).
  - exists entry. split; [done|]. left. split; [|done].
    intros conn Hc. by apply elem_of_nil in Hc.
  - intros done x rest s _ (cur & Hcur & Hstate).
    assert (∀ P : sconn → Prop, (∃ conn, conn ∈ done ∧ P conn) →
              ∃ conn, conn ∈ done ++ [x] ∧ P conn) as Hmono.
    { intros P (c & Hc & HP). exists c. split; [|done]. apply elem_of_app. by left. }
    assert (resolved_exe is_private env x ≠ Some exe →
            (∀ conn, conn ∈ done → resolved_exe is_private env conn ≠ Some exe) →
            ∀ conn, conn ∈ done ++ [x] → resolved_exe is_private env conn ≠ Some exe)
      as Hnone.
    { intros Hx Hd c Hc. apply elem_of_app in Hc as [Hc|Hc]; [by apply Hd|].
      by apply list_elem_of_singleton in Hc as ->. }
    assert (∀ m : gmap string proc_entry, m !! exe = Some cur →
              resolved_exe is_private env x ≠ Some exe →
              ∃ entry', m !! exe = Some entry' ∧
                (((∀ conn, conn ∈ done ++ [x] →
                     resolved_exe is_private env conn ≠ Some exe) ∧ entry' = entry) ∨
                 ((∃ conn, conn ∈ done ++ [x] ∧
                     resolved_exe is_private env conn = Some exe) ∧
                  e_last_seen entry' = now env ∧
                  e_days_seen entry' =
                    if decide (date_of (now env) = date_of (e_last_seen entry))
                    then e_days_seen entry else (e_days_seen entry + 1)%Z))) as Hkeep.
    { intros m Hm Hx. exists cur. split; [done|].
      destruct Hstate as [[Hd ->]|(Hex & Hl & Hdays)].
      - left. split; [by apply Hnone|done].
      - right. split; [by apply Hmono|done]. }
    turn is_private env x s Hc.
    + apply (Hkeep procs); [done|]. intros Hr.
      apply resolved_exe_classify in Hr as (? & ? & Hr & _). congruence.
    + apply (Hkeep procs); [done|]. intros Hr.
      apply resolved_exe_classify in Hr as (? & ? & Hr & _). congruence.
    + destruct (decide (p_exe proc = exe)) as [Heq|Hne].
      * rewrite Heq, Hcur. simpl. rewrite lookup_insert_eq. eexists. split; [done|].
        right. split.
        { exists x. split; [apply elem_of_app; right; by left|].
          apply resolved_exe_classify. by exists raddr, proc. }
        rewrite update_fields_run. simpl. split; [done|].
        destruct Hstate as [[_ ->]|(_ & Hl & Hdays)]; [done|].
        rewrite Hl, decide_True by done. done.
      * assert (resolved_exe is_private env x ≠ Some exe) as Hx.
        { intros Hr. apply resolved_exe_classify in Hr as (ra & pr & Hr & He).
          rewrite Hc in Hr. injection Hr as <- <-. done. }
        destruct (procs !! p_exe proc); simpl;
          (apply Hkeep; [by rewrite lookup_insert_ne | done]).
Qed.

(** X11. Over one tick an entry counts at most one day, however many new
    connections of its executable the tick resolves: when there is none
    the entry is as it was, and when there is one [last seen] is the
    time of the tick and [days seen] is one more than before if the date
    of the tick differs from the date the entry was last seen, and as
    before if not. *)
Theorem days_seen_once_per_tick env last h exe entry :
  s_processes (h_snitch h) !! exe = Some entry →
  ∃ h' entry',
    poll str_list is_private str_conn set_iter env last h =
      (inr (list_to_set (net_connections env)), h') ∧
    s_processes (h_snitch h') !! exe = Some entry' ∧
    (((∀ conn, conn ∈ (list_to_set (net_connections env) ∖ last : gset sconn) →
               resolved_exe is_private env conn ≠ Some exe) ∧
      entry' = entry) ∨
     ((∃ conn, conn ∈ (list_to_set (net_connections env) ∖ last : gset sconn) ∧
               resolved_exe is_private env conn = Some exe) ∧
      e_last_seen entry' = now env ∧
      e_days_seen entry' =
        if decide (date_of (now env) = date_of (e_last_seen entry))
        then e_days_seen entry else (e_days_seen entry + 1)%Z)).
Proof.
  intros Hentry.
  destruct (poll_loop_entry env (set_iter (list_to_set (net_connections env) ∖ last))
              (Frame h (Proc "" "" (CmdStr "") None)) exe entry Hentry)
    as (f & Hf & entry' & He & Hstate).
  eexists _, entry'. split; [by apply poll_run|]. simpl. split; [done|].
  destruct Hstate as [[Hnone ->]|((c & Hc & Hr) & Hl & Hd)].
  - left. split; [|done]. intros c Hc.
    by apply Hnone, (elem_of_set_iter set_iter set_iter_perm).
  - right. split; [|done]. exists c.
    split; [by apply (elem_of_set_iter set_iter set_iter_perm)|done].
Qed.

End days_in_tick.

Lemma days_seen_once_per_tick_witness :
  ∃ h' entry',
    poll Demo.str_list Demo.is_private Demo.str_conn Demo.set_iter Sample.env_both ∅
      Sample.heap1 = (inr (list_to_set (net_connections Sample.env_both)), h') ∧
    s_processes (h_snitch h') !! "/usr/bin/curl" = Some entry' ∧
    (((∀ conn, conn ∈ (list_to_set (net_connections Sample.env_both) ∖ ∅ : gset sconn) →
               resolved_exe Demo.is_private Sample.env_both conn ≠ Some "/usr/bin/curl") ∧
      entry' = Entry "curl" ["['curl', 'example.com']"] Demo.t1 Demo.t1 1 ["93.184.216.34"]) ∨
     ((∃ conn, conn ∈ (list_to_set (net_connections Sample.env_both) ∖ ∅ : gset sconn) ∧
               resolved_exe Demo.is_private Sample.env_both conn = Some "/usr/bin/curl") ∧
      e_last_seen entry' = Demo.t2 ∧
      e_days_seen entry' = 2)).
Proof.
  apply (days_seen_once_per_tick Demo.str_list Demo.is_private Demo.str_conn Demo.set_iter
           (λ X, reflexivity (elements X)) Sample.env_both ∅ Sample.heap1 "/usr/bin/curl"
           (Entry "curl" ["['curl', 'example.com']"] Demo.t1 Demo.t1 1 ["93.184.216.34"])).
  reflexivity.
Defined.

(** ** The run loop *)

Lemma for_each_app {St A} (body : A → M St unit) (l1 l2 : list A) (s : St) :
  for_each (l1 ++ l2) body s =
  match for_each l1 body s with
  | (inr _, s') => for_each l2 body s'
  | (inl e, s') => (inl e, s')
  end.
Proof.
  revert s. induction l1 as [|x l1 IH]; intros s; [done|].
  simpl. unfold mbind, M_bind. destruct (body x s) as [[e|[]] s']; [done|]. apply IH.
Qed.

Section store_facts.

Context (json_dump : snitch → string).

(** [write] by cases: a directory that is missing and cannot be made
    raises out of it; a file that cannot be opened is left as it was, a
    dump that raises leaves what it had written, and both are reported;
    otherwise the file is the dump of the snitch. *)
Lemma write_run (d : disk) (h : heap) :
  write json_dump d h =
  if negb (fs_dir (h_fs h)) && negb (makedirs_ok d)
  then (inl OSError, h)
  else
    (inr tt,
     if open_ok d
     then match dump_stops d with
          | None =>
              Heap (h_snitch h) (h_pcap h) (h_out h)
                   (Fs true (Some (json_dump (h_snitch h))))
          | Some text =>
              Heap (h_snitch h) (h_pcap h)
                   (h_out h ++ [(Stderr, "picosnitch write error")]) (Fs true (Some text))
          end
     else Heap (h_snitch h) (h_pcap h) (h_out h ++ [(Stderr, "picosnitch write error")])
               (Fs true (fs_file (h_fs h)))).
Proof.
  destruct h as [s pcap out [dir file]], d as [mk op stops].
  unfold write, try_except, toast. munfold. simpl.
  destruct dir, mk, op, stops; reflexivity.
Qed.

End store_facts.

Section iteration_facts.

Context (str_list : list string → string).
Context (is_private : string → option bool).
Context (str_conn : sconn → string).
Context (set_iter : gset sconn → list sconn).
Context (json_dump : snitch → string).
Context (sleep_refuses : number → bool).

(** An iteration of [loop] whose drain finds the queue empty (or that has
    no queue): the tick of [poll] from the candidate map the iteration
    starts with, then the sleep, then the write when it is due. *)
Lemma loop_body_run env h (queue : bool) connections interval write_counter counter :
  (queue = true → captured env = []) →
  loop_body str_list is_private str_conn set_iter json_dump sleep_refuses env
    (LoopSt h queue connections interval write_counter counter) =
  let h1 := (poll str_list is_private str_conn set_iter env connections
               (if queue then set_pcap (λ _, []) h else h)).2 in
  let current := list_to_set (net_connections env) in
  if sleep_refuses interval
  then (inl ValueError, LoopSt h1 queue current interval write_counter counter)
  else if (counter >=? write_counter)%Z
       then match write json_dump (storage env) h1 with
            | (inr _, h2) => (inr tt, LoopSt h2 queue current interval write_counter 0)
            | (inl e, h2) => (inl e, LoopSt h2 queue current interval write_counter counter)
            end
       else (inr tt, LoopSt h1 queue current interval write_counter (counter + 1)).
Proof.
  intros Hq. unfold loop_body. munfold. unfold zoom. simpl.
  destruct queue; simpl.
  - rewrite (Hq eq_refl). simpl. unfold drain. simpl.
    destruct (poll_decompose str_list is_private str_conn set_iter env connections
                (set_pcap (λ _, []) h)) as (f & _ & Hp).
    rewrite Hp. simpl.
    destruct (sleep_refuses interval); [done|]. simpl.
    destruct (counter >=? write_counter)%Z; [|done].
    unfold set_connections, set_counter. simpl.
    by destruct (write json_dump (storage env) _) as [[e|[]] h2].
  - destruct (poll_decompose str_list is_private str_conn set_iter env connections h)
      as (f & _ & Hp).
    rewrite Hp. simpl.
    destruct (sleep_refuses interval); [done|]. simpl.
    destruct (counter >=? write_counter)%Z; [|done].
    unfold set_connections, set_counter. simpl.
    by destruct (write json_dump (storage env) _) as [[e|[]] h2].
Qed.

End iteration_facts.

Section loop_claims.

Context (str_list : list string → string).
Context (is_private : string → option bool).
Context (str_conn : sconn → string).
Context (set_iter : gset sconn → list sconn).
Context (json_dump : snitch → string).
Context (sleep_refuses : number → bool).

(** Iterations before the write is due: the counter counts them and the
    state file is not touched. *)
Lemma loop_run_quiet envs h (queue : bool) connections interval write_counter counter :
  (queue = true → Forall (λ env, captured env = []) envs) →
  sleep_refuses interval = false →
  (counter + Z.of_nat (length envs) ≤ write_counter)%Z →
  ∃ h' connections',
    loop_run str_list is_private str_conn set_iter json_dump sleep_refuses envs
      (LoopSt h queue connections interval write_counter counter) =
    (inr tt, LoopSt h' queue connections' interval write_counter
               (counter + Z.of_nat (length envs))) ∧
    h_fs h' = h_fs h.
Proof.
  intros Hq Hsleep. unfold loop_run.
  revert h connections counter. induction envs as [|env envs IH];
    intros h connections counter Hle.
  - exists h, connections. simpl. by rewrite Z.add_0_r.
  - assert (queue = true → captured env = []) as Hq0.
    { intros Hqt. specialize (Hq Hqt). by apply Forall_cons in Hq as [? _]. }
    assert (queue = true → Forall (λ env, captured env = []) envs) as Hq'.
    { intros Hqt. specialize (Hq Hqt). by apply Forall_cons in Hq as [_ ?]. }
    rewrite for_each_cons, loop_body_run by done.
    cbv zeta. rewrite Hsleep.
    assert ((counter >=? write_counter)%Z = false) as ->.
    { rewrite Z.geb_leb. apply Z.leb_gt. simpl in Hle. lia. }
    destruct (IH Hq'
                (poll str_list is_private str_conn set_iter env connections
                   (if queue then set_pcap (λ _, []) h else h)).2
                (list_to_set (net_connections env)) (counter + 1)%Z)
      as (h' & connections' & Hrun & Hfs).
    { simpl in Hle. lia. }
    exists h', connections'. rewrite Hrun. split.
    + replace (counter + Z.of_nat (length (env :: envs)))%Z
        with (counter + 1 + Z.of_nat (length envs))%Z by (simpl length; lia).
      done.
    + rewrite Hfs.
      destruct (poll_frame str_list is_private str_conn set_iter env connections
                  (if queue then set_pcap (λ _, []) h else h)) as (h1 & Hp & _ & _ & Hfs1).
      rewrite Hp. simpl. rewrite Hfs1. by destruct queue.
Qed.

(** X12. The write comes with the iteration after [write_counter]
    iterations, not before: [loop] starting with the counter at 0 leaves
    the state file alone for [write_counter] iterations, and the next one
    calls [write] on the snitch as its tick left it. When the directory
    is missing and cannot be made, [OSError] leaves [loop] there, nothing
    written and the counter as it was. Otherwise the counter is set back
    to 0 whether the state got written or not: the file is the dump of
    the snitch, or what a dump that raised left of it, or, when it could
    not be opened, what it was. *)
Theorem write_cadence quiet env h (queue : bool) connections interval write_counter :
  (queue = true → Forall (λ env, captured env = []) (quiet ++ [env])) →
  sleep_refuses interval = false →
  Z.of_nat (length quiet) = write_counter →
  ∃ h1 connections1 r h2 counter2,
    loop_run str_list is_private str_conn set_iter json_dump sleep_refuses quiet
      (LoopSt h queue connections interval write_counter 0) =
      (inr tt, LoopSt h1 queue connections1 interval write_counter write_counter) ∧
    h_fs h1 = h_fs h ∧
    loop_run str_list is_private str_conn set_iter json_dump sleep_refuses (quiet ++ [env])
      (LoopSt h queue connections interval write_counter 0) =
      (r, LoopSt h2 queue (list_to_set (net_connections env)) interval
            write_counter counter2) ∧
    h_snitch h2 =
      h_snitch (poll str_list is_private str_conn set_iter env connections1
                  (if queue then set_pcap (λ _, []) h1 else h1)).2 ∧
    if negb (fs_dir (h_fs h)) && negb (makedirs_ok (storage env))
    then r = inl OSError ∧ counter2 = write_counter ∧ h_fs h2 = h_fs h
    else r = inr tt ∧ counter2 = 0 ∧ fs_dir (h_fs h2) = true ∧
         fs_file (h_fs h2) =
           if open_ok (storage env)
           then match dump_stops (storage env) with
                | None => Some (json_dump (h_snitch h2))
                | Some text => Some text
                end
           else fs_file (h_fs h).
Proof.
  intros Hq Hsleep Hlen.
  destruct (loop_run_quiet quiet h queue connections interval write_counter 0)
    as (h1 & connections1 & Hrun & Hfs); [|done|lia|].
  { intros Hqt. specialize (Hq Hqt). by apply Forall_app in Hq as [? _]. }
  rewrite Z.add_0_l, Hlen in Hrun.
  exists h1, connections1.
  unfold loop_run in *. rewrite for_each_app, Hrun, for_each_cons, loop_body_run.
  2:{ intros Hqt. specialize (Hq Hqt). apply Forall_app in Hq as [_ Hq].
      by apply Forall_cons in Hq as [? _]. }
  cbv zeta. rewrite Hsleep.
  assert ((write_counter >=? write_counter)%Z = true) as ->
    by (rewrite Z.geb_leb; apply Z.leb_le; lia).
  destruct (poll_frame str_list is_private str_conn set_iter env connections1
              (if queue then set_pcap (λ _, []) h1 else h1)) as (hp & Hp & _ & _ & Hfsp).
  assert (h_fs hp = h_fs h) as Hfs' by (rewrite Hfsp, <- Hfs; by destruct queue).
  rewrite Hp. cbn [snd]. rewrite write_run, Hfs'.
  destruct (negb (fs_dir (h_fs h)) && negb (makedirs_ok (storage env))).
  - eexists _, _, _. split; [done|]. split; [done|]. split; [reflexivity|]. by split.
  - eexists _, _, _. split; [done|]. split; [done|]. split; [reflexivity|].
    destruct (open_ok (storage env)); [destruct (dump_stops (storage env))|];
      simpl; by rewrite ?Hfs'.
Qed.

(** X13. An iteration of [loop] with the queue at hand and nothing in
    it: the drain raises nothing, and the iteration is the one [loop]
    runs without a queue from an empty candidate map. *)
Theorem empty_queue_tick env h connections interval write_counter counter :
  captured env = [] →
  ∃ r h' connections' counter',
    loop_body str_list is_private str_conn set_iter json_dump sleep_refuses env
      (LoopSt h true connections interval write_counter counter) =
      (r, LoopSt h' true connections' interval write_counter counter') ∧
    loop_body str_list is_private str_conn set_iter json_dump sleep_refuses env
      (LoopSt (set_pcap (λ _, []) h) false connections interval write_counter counter) =
      (r, LoopSt h' false connections' interval write_counter counter') ∧
    r ≠ inl NameError.
Proof.
  intros Hcap. rewrite !loop_body_run by done. cbv zeta.
  destruct (sleep_refuses interval); [by eexists _, _, _, _|].
  destruct (counter >=? write_counter)%Z; [|by eexists _, _, _, _].
  destruct (write json_dump (storage env) _) as [[e|[]] h2] eqn:Hw;
    [|by eexists _, _, _, _].
  eexists _, _, _, _. split; [done|]. split; [done|]. intros [= ->].
  rewrite write_run in Hw. by destruct (negb _ && negb _).
Qed.

End loop_claims.

Lemma write_cadence_witness :
  ∃ h1 connections1 r h2 counter2,
    loop_run Demo.str_list Demo.is_private Demo.str_conn Demo.set_iter Demo.json_dump
      Demo.sleep_refuses [Demo.env1]
      (LoopSt Demo.heap0 false ∅ (NFloat float_0_2) 1 0) =
      (inr tt, LoopSt h1 false connections1 (NFloat float_0_2) 1 1) ∧
    h_fs h1 = h_fs Demo.heap0 ∧
    loop_run Demo.str_list Demo.is_private Demo.str_conn Demo.set_iter Demo.json_dump
      Demo.sleep_refuses ([Demo.env1] ++ [Sample.env_disk_full])
      (LoopSt Demo.heap0 false ∅ (NFloat float_0_2) 1 0) =
      (r, LoopSt h2 false (list_to_set (net_connections Sample.env_disk_full))
            (NFloat float_0_2) 1 counter2) ∧
    h_snitch h2 =
      h_snitch (poll Demo.str_list Demo.is_private Demo.str_conn Demo.set_iter
                  Sample.env_disk_full connections1 h1).2 ∧
    r = inr tt ∧ counter2 = 0 ∧ fs_dir (h_fs h2) = true ∧ fs_file (h_fs h2) = Some "{".
Proof.
  apply (write_cadence Demo.str_list Demo.is_private Demo.str_conn Demo.set_iter
           Demo.json_dump Demo.sleep_refuses [Demo.env1] Sample.env_disk_full Demo.heap0
           false ∅ (NFloat float_0_2) 1); [discriminate | reflexivity | reflexivity].
Defined.

Lemma empty_queue_tick_witness :
  ∃ r h' connections' counter',
    loop_body Demo.str_list Demo.is_private Demo.str_conn Demo.set_iter Demo.json_dump
      Demo.sleep_refuses Demo.env1 (LoopSt Sample.heap_candidates true ∅ (NFloat float_0_2) 3000 0) =
      (r, LoopSt h' true connections' (NFloat float_0_2) 3000 counter') ∧
    loop_body Demo.str_list Demo.is_private Demo.str_conn Demo.set_iter Demo.json_dump
      Demo.sleep_refuses Demo.env1
      (LoopSt (set_pcap (λ _, []) Sample.heap_candidates) false ∅ (NFloat float_0_2) 3000 0) =
      (r, LoopSt h' false connections' (NFloat float_0_2) 3000 counter') ∧
    r ≠ inl NameError.
Proof.
  apply (empty_queue_tick Demo.str_list Demo.is_private Demo.str_conn Demo.set_iter
           Demo.json_dump Demo.sleep_refuses Demo.env1 Sample.heap_candidates ∅
           (NFloat float_0_2) 3000 0). reflexivity.
Defined.
(** ** Stop and start *)

Section restart.

Context (json_dump : snitch → string) (json_load : string → loaded).
Context (int_truediv : number → number → exn + Z).
Context (as_script scapy_installed : bool).

(** X14. [terminate] writes the state and exits. When the disk took the
    write and [json] reads the state back as it wrote it, a later start
    of [loop], whatever its memory holds, begins with the snitch the
    process ended with, an empty candidate map, no connection seen and
    the counter at 0; its queue is there only with capture configured
    and the module run as a script. With capture configured and scapy
    not installed the start raises [ImportError] instead. *)
Theorem state_survives_restart (h : heap) (d : disk) (stale : snitch) (pcap_dict : Dict.t)
    (out : list (stream * string)) (write_counter : Z) :
  (fs_dir (h_fs h) = false → makedirs_ok d = true) →
  open_ok d = true →
  dump_stops d = None →
  json_load (json_dump (h_snitch h)) = Document (h_snitch h) →
  int_truediv (write_interval (s_config (h_snitch h)))
              (polling_interval (s_config (h_snitch h))) = inr write_counter →
  ∃ h1,
    terminate json_dump d h = (inl SystemExit, h1) ∧
    h_snitch h1 = h_snitch h ∧
    loop_init json_load int_truediv as_script scapy_installed
      (Heap stale pcap_dict out (h_fs h1)) =
      if use_pcap (s_config (h_snitch h)) && negb scapy_installed
      then (inl ImportError, Heap (h_snitch h) pcap_dict out (h_fs h1))
      else (inr (LoopSt (Heap (h_snitch h) [] out (h_fs h1))
                   (use_pcap (s_config (h_snitch h)) && as_script) ∅
                   (polling_interval (s_config (h_snitch h))) write_counter 0),
            Heap (h_snitch h) [] out (h_fs h1)).
Proof.
  intros Hdir Hopen Hdump Hjson Hdiv. unfold terminate. munfold. rewrite write_run.
  assert (negb (fs_dir (h_fs h)) && negb (makedirs_ok d) = false) as ->.
  { destruct (fs_dir (h_fs h)); [done|]. by rewrite Hdir. }
  rewrite Hopen, Hdump.
  eexists. split; [reflexivity|]. split; [done|].
  unfold loop_init, read, init_pcap. munfold. simpl. rewrite Hjson. simpl.
  destruct (use_pcap (s_config (h_snitch h))); simpl.
  - destruct scapy_installed; simpl; [|done]. by rewrite Hdiv.
  - by rewrite Hdiv.
Qed.

(** X18. [write] is not atomic: [open] empties the file before
    [json.dump] writes, so a dump that raises leaves the file with what
    it had written. [write] reports it and returns; when [json] cannot
    read that text, the next start of [loop] raises [JSONDecodeError]
    whatever the file held before the write. *)
Theorem torn_write_stops_restart (h : heap) (d : disk) (text : string) (stale : snitch)
    (pcap_dict : Dict.t) (out : list (stream * string)) :
  (fs_dir (h_fs h) = false → makedirs_ok d = true) →
  open_ok d = true →
  dump_stops d = Some text →
  json_load text = Malformed →
  ∃ h1,
    write json_dump d h = (inr tt, h1) ∧
    h_snitch h1 = h_snitch h ∧
    h_out h1 = h_out h ++ [(Stderr, "picosnitch write error")] ∧
    fs_file (h_fs h1) = Some text ∧
    loop_init json_load int_truediv as_script scapy_installed
      (Heap stale pcap_dict out (h_fs h1)) =
      (inl JSONDecodeError, Heap stale pcap_dict out (h_fs h1)).
Proof.
  intros Hdir Hopen Hdump Hjson. rewrite write_run.
  assert (negb (fs_dir (h_fs h)) && negb (makedirs_ok d) = false) as ->.
  { destruct (fs_dir (h_fs h)); [done|]. by rewrite Hdir. }
  rewrite Hopen, Hdump.
  eexists. split; [reflexivity|]. split; [done|]. split; [done|]. split; [done|].
  unfold loop_init, read. munfold. simpl. by rewrite Hjson.
Qed.

End restart.

Lemma state_survives_restart_witness :
  ∃ h1,
    terminate Sample.json_dump writable Sample.heap1 = (inl SystemExit, h1) ∧
    h_snitch h1 = h_snitch Sample.heap1 ∧
    loop_init Sample.json_load Sample.int_truediv true false
      (Heap default_snitch [(50009, Demo.pkt)] [] (h_fs h1)) =
      (inr (LoopSt (Heap (h_snitch Sample.heap1) [] [] (h_fs h1)) false ∅
                   (NFloat float_0_2) 3000 0),
       Heap (h_snitch Sample.heap1) [] [] (h_fs h1)).
Proof.
  apply (state_survives_restart Sample.json_dump Sample.json_load Sample.int_truediv
           true false Sample.heap1 writable default_snitch [(50009, Demo.pkt)] [] 3000);
    reflexivity.
Defined.

Lemma torn_write_stops_restart_witness :
  ∃ h1,
    write Sample.json_dump (Disk true true (Some "{")) Sample.heap1 = (inr tt, h1) ∧
    h_snitch h1 = h_snitch Sample.heap1 ∧
    h_out h1 = h_out Sample.heap1 ++ [(Stderr, "picosnitch write error")] ∧
    fs_file (h_fs h1) = Some "{" ∧
    loop_init Sample.json_load Sample.int_truediv true false
      (Heap default_snitch [] [] (h_fs h1)) =
      (inl JSONDecodeError, Heap default_snitch [] [] (h_fs h1)).
Proof.
  apply (torn_write_stops_restart Sample.json_dump Sample.json_load Sample.int_truediv
           true false Sample.heap1 (Disk true true (Some "{")) "{" default_snitch [] []);
    reflexivity.
Defined.

(** ** The capture callbacks *)

Section capture_claims.

Context (is_private : string → option bool).

(** X15. A packet that [filter_packet] lets through has exactly one
    private end, and [parse_packet] then never returns the empty
    dictionary: it raises only for want of a port, and the record it
    returns has the private end as local address and the other as remote
    address, "outgoing" with the source port when the source is the
    private end, "incoming" with the destination port when the
    destination is. *)
Theorem captured_record_is_local (packet : raw_packet) :
  filter_packet is_private packet = true →
  ∃ src dst,
    r_ip packet = Some (src, dst) ∧
    ((is_private src = Some true ∧ is_private dst = Some false ∧
      parse_packet is_private packet =
        match r_sport packet with
        | Some sport => inr (Some (Packet "outgoing" src sport dst))
        | None => inl AttributeError
        end) ∨
     (is_private src = Some false ∧ is_private dst = Some true ∧
      parse_packet is_private packet =
        match r_dport packet with
        | Some dport => inr (Some (Packet "incoming" dst dport src))
        | None => inl AttributeError
        end)).
Proof.
  unfold filter_packet, parse_packet.
  destruct (r_ip packet) as [[src dst]|]; [|done].
  destruct (is_private src) as [[|]|] eqn:Es, (is_private dst) as [[|]|] eqn:Ed;
    try done; intros _; exists src, dst; (split; [done|]); rewrite Es, ?Ed.
  - left. repeat split; reflexivity.
  - right. repeat split; reflexivity.
Qed.

(** X16. What [filter_packet] drops: a packet without an IP layer, one
    with an address [ipaddress] refuses, and one whose two ends are both
    private or both public; for the last [parse_packet], were it
    called, would say "outgoing" (both private) or return the empty
    dictionary (both public). *)
Theorem filter_packet_drops (packet : raw_packet) :
  filter_packet is_private packet = false ↔
  r_ip packet = None ∨
  ∃ src dst, r_ip packet = Some (src, dst) ∧
    (is_private src = None ∨ is_private dst = None ∨
     (is_private src = Some true ∧ is_private dst = Some true ∧
      parse_packet is_private packet =
        match r_sport packet with
        | Some sport => inr (Some (Packet "outgoing" src sport dst))
        | None => inl AttributeError
        end) ∨
     (is_private src = Some false ∧ is_private dst = Some false ∧
      parse_packet is_private packet = inr None)).
Proof.
  unfold filter_packet, parse_packet.
  destruct (r_ip packet) as [[src dst]|]; [|by split; [left|]].
  destruct (is_private src) as [[|]|] eqn:Es, (is_private dst) as [[|]|] eqn:Ed;
    simpl; split; try done;
    try (intros _; right; exists src, dst; split; [done|]; rewrite ?Es, ?Ed; tauto);
    intros [?|(s & d & [= <- <-] & H)]; try done;
    rewrite ?Es, ?Ed in H; destruct H as [?|[?|[(? & ? & ?)|(? & ? & ?)]]]; done.
Qed.

End capture_claims.

Lemma captured_record_is_local_witness :
  ∃ src dst,
    r_ip Sample.packet_in = Some (src, dst) ∧
    ((Demo.is_private src = Some true ∧ Demo.is_private dst = Some false ∧
      parse_packet Demo.is_private Sample.packet_in =
        match r_sport Sample.packet_in with
        | Some sport => inr (Some (Packet "outgoing" src sport dst))
        | None => inl AttributeError
        end) ∨
     (Demo.is_private src = Some false ∧ Demo.is_private dst = Some true ∧
      parse_packet Demo.is_private Sample.packet_in =
        match r_dport Sample.packet_in with
        | Some dport => inr (Some (Packet "incoming" dst dport src))
        | None => inl AttributeError
        end)).
Proof. apply (captured_record_is_local Demo.is_private Sample.packet_in). reflexivity. Defined.

(** ** Alternative names *)

Section alternatives.

Context (str_list : list string → string).


End alternatives.


(** ** Days on record *)

Section days_on_record.

Context (str_list : list string → string).
Context (is_private : string → option bool).
Context (str_conn : sconn → string).
Context (set_iter : gset sconn → list sconn).

(** X19. From the fresh default state, after any run of ticks of [poll],
    every entry has [days seen] at 1 or more. *)
Theorem days_seen_at_least_one ticks pcap_dict out fsys :
  map_Forall (λ _ entry, (1 ≤ e_days_seen entry)%Z)
    (s_processes (h_snitch
       (poll_ticks str_list is_private str_conn set_iter ticks ∅
          (Heap default_snitch pcap_dict out fsys)).2)).
Proof.
  intros exe entry. apply poll_ticks_days. clear exe entry. intros exe entry H.
  simpl in H. by rewrite lookup_empty in H.
Qed.

End days_on_record.
